(** * CSV import / export and storage policies of the capoeira song book

    Shallow embedding of
    - [parseCSV] and [handleFileChange] (components/ImportModal.tsx),
    - [handleExport] and [CategorySection] (pages/Home.tsx),
    - [SongView], the song page,
    - the tables, integrity constraints and row level security policies of
      supabase/migrations/20251016170521_create_songs_and_settings_tables.sql.

    A JavaScript string is modelled as a [string]: one [ascii] per code
    unit, so the development covers texts whose code units lie in
    U+0000..U+00FF.  [toLowerCase] and [trim] are given for that range. *)

From Stdlib Require Import Ascii String List Bool Arith Lia Sorted.
From stdpp Require Import base option list strings gmap fin_maps.

Open Scope string_scope.
Open Scope list_scope.

(** ** Characters the code compares against *)

Definition LF : ascii := "010"%char.
Definition CR : ascii := "013"%char.
Definition QUOTE : ascii := "034"%char.
Definition COMMA : ascii := ","%char.

(** [nextChar === c] where [nextChar] is [text[i + 1]], possibly undefined. *)
Definition next_is (nextChar : option ascii) (c : ascii) : bool :=
  match nextChar with
  | Some d => Ascii.eqb d c
  | None => false
  end.

(** JavaScript truthiness of a string: only the empty string is falsy. *)
Definition truthy (s : string) : bool :=
  match s with
  | EmptyString => false
  | String _ _ => true
  end.

(** [s += char] *)
Definition add_char (s : string) (char : ascii) : string :=
  s +:+ String char EmptyString.

(** [text[i]] read on the suffix of [text] that starts at index [i]. *)
Definition first_char (suffix : string) : option ascii :=
  match suffix with
  | EmptyString => None
  | String c _ => Some c
  end.

(** ** components/ImportModal.tsx *)

Module ImportModal.

(** The four mutable locals of [parseCSV] besides the index [i]. *)
Record state := State {
  result : list (list string);
  row : list string;
  inQuotes : bool;
  currentValue : string
}.

Definition init : state := State [] [] false "".

(** [if (currentValue || row.length > 0) { row.push(currentValue);
    result.push(row); }] *)
Definition flush (st : state) : list (list string) :=
  if truthy (currentValue st) || Nat.ltb 0 (length (row st))
  then result st ++ [row st ++ [currentValue st]]
  else result st.

(** One turn of the [while] loop, before the final [i++].  The boolean
    says whether the turn ran its own [i++] (a second character is
    consumed). *)
Definition loop_body (st : state) (char : ascii) (nextChar : option ascii)
  : state * bool :=
  if Ascii.eqb char CR || Ascii.eqb char LF then
    (if inQuotes st
     then State (result st) (row st) true (add_char (currentValue st) char)
     else State (flush st) [] false "",
     Ascii.eqb char CR && next_is nextChar LF)
  else if Ascii.eqb char QUOTE then
    if inQuotes st && next_is nextChar QUOTE
    then (State (result st) (row st) (inQuotes st)
            (add_char (currentValue st) QUOTE), true)
    else (State (result st) (row st) (negb (inQuotes st)) (currentValue st),
          false)
  else if Ascii.eqb char COMMA && negb (inQuotes st) then
    (State (result st) (row st ++ [currentValue st]) (inQuotes st) "", false)
  else
    (State (result st) (row st) (inQuotes st) (add_char (currentValue st) char),
     false).

(** [while (i < text.length)], on the suffix of [text] from [i] on. *)
Fixpoint scan (st : state) (suffix : string) : state :=
  match suffix with
  | EmptyString => st
  | String char rest =>
      let (st', twice) := loop_body st char (first_char rest) in
      match twice, rest with
      | true, String _ rest' => scan st' rest'
      | _, _ => scan st' rest
      end
  end.

Definition parseCSV (text : string) : list (list string) :=
  flush (scan init text).


(** *** The secondary un-quoting pass

    [value.replace(/^Q|Q$/g, '').replace(/QQ/g, 'Q')], writing Q for the
    double quote character.  The first regular expression has no [m]
    flag, so it removes a quote at index 0 and a quote at the last index
    of the input. *)

Definition stripLeadingQuote (s : string) : string :=
  match s with
  | String c r => if Ascii.eqb c QUOTE then r else s
  | EmptyString => EmptyString
  end.

Fixpoint stripTrailingQuote (s : string) : string :=
  match s with
  | EmptyString => EmptyString
  | String c EmptyString => if Ascii.eqb c QUOTE then EmptyString else s
  | String c r => String c (stripTrailingQuote r)
  end.

(** [.replace(/QQ/g, 'Q')]: matches are found left to right and do not
    overlap. *)
Fixpoint undouble (s : string) : string :=
  match s with
  | EmptyString => EmptyString
  | String c r =>
      match r with
      | String d r' =>
          if Ascii.eqb c QUOTE && Ascii.eqb d QUOTE
          then String QUOTE (undouble r')
          else String c (undouble r)
      | EmptyString => s
      end
  end.

Definition unquote (value : string) : string :=
  undouble (stripTrailingQuote (stripLeadingQuote value)).

(** *** String.prototype.toLowerCase and trim on U+0000..U+00FF *)

Definition lower_char (c : ascii) : ascii :=
  let n := nat_of_ascii c in
  if (Nat.leb 65 n && Nat.leb n 90)
     || (Nat.leb 192 n && Nat.leb n 222 && negb (Nat.eqb n 215))
  then ascii_of_nat (n + 32)
  else c.

Fixpoint toLowerCase (s : string) : string :=
  match s with
  | EmptyString => EmptyString
  | String c r => String (lower_char c) (toLowerCase r)
  end.

(** White space and line terminators: TAB, LF, VT, FF, CR, SP, NBSP. *)
Definition is_space (c : ascii) : bool :=
  let n := nat_of_ascii c in
  (Nat.leb 9 n && Nat.leb n 13) || Nat.eqb n 32 || Nat.eqb n 160.

Fixpoint trimStart (s : string) : string :=
  match s with
  | EmptyString => EmptyString
  | String c r => if is_space c then trimStart r else s
  end.

Fixpoint trimEnd (s : string) : string :=
  match s with
  | EmptyString => EmptyString
  | String c r =>
      match trimEnd r with
      | EmptyString => if is_space c then EmptyString else String c EmptyString
      | r' => String c r'
      end
  end.

Definition trim (s : string) : string := trimEnd (trimStart s).

(** *** Row to record mapping *)

(** [const song: any = {}]: an object whose properties are set by name;
    a later assignment to a name replaces the earlier one.  Only the
    properties title, mnemonic and category are read back by the code. *)
Abbreviation object := (gmap string string).

(** [values[index] || ''] *)
Definition or_empty (v : option string) : string :=
  match v with
  | Some s => s
  | None => ""
  end.

(** Truthiness of a property read such as [song.title]; a property that
    was never set reads as undefined. *)
Definition truthy_prop (v : option string) : bool :=
  match v with
  | Some s => truthy s
  | None => false
  end.

(** [song[name] = value] for a string [value] on an object made by the
    literal [{}]: the property is set, except under the name __proto__,
    where the assignment reaches the accessor of Object.prototype, which
    ignores a value that is no object, and the object stays as it is. *)
Definition assign (name value : string) (song : object) : object :=
  if String.eqb name "__proto__" then song else <[name := value]> song.

(** [headers.forEach((header, index) => { ... })], from [index] on. *)
Fixpoint forEach_header (values : list string) (index : nat)
    (headers : list string) (song : object) : object :=
  match headers with
  | [] => song
  | header :: rest =>
      let value := or_empty (values !! index) in
      let value := unquote value in
      forEach_header values (S index) rest (assign (trim header) value song)
  end.

Definition rowObject (headers values : list string) : object :=
  forEach_header values 0 headers ∅.

(** The literal array of line 123. *)
Definition validCategories : list string :=
  ["angola"; "saoBentoPequeno"; "saoBentoGrande"].

(** [[...].includes(song.category)]; undefined is no member. *)
Definition includes_prop (l : list string) (v : option string) : bool :=
  match v with
  | Some s => bool_decide (s ∈ l)
  | None => false
  end.

(** The four [Error]s thrown by [handleFileChange], in the order of the
    source.  Their messages are
    - Le fichier CSV doit contenir au moins un en-tete et une ligne de
      donnees,
    - Le fichier CSV doit contenir au moins les colonnes title et category,
    - Le titre ou la phrase mnemotechnique est obligatoire a la ligne N,
    - Categorie invalide a la ligne N: C, followed by the valid categories,
    where N is [rowIndex + 2] and C is [song.category]. *)
Inductive error :=
  | TooFewRows
  | MissingColumns
  | TitleOrMnemonicRequired (line : nat)
  | InvalidCategory (line : nat) (category : option string).

(** The callback of [rows.slice(1).map((values, rowIndex) => ...)]. *)
Definition toSong (headers values : list string) (rowIndex : nat)
  : error + object :=
  let song := rowObject headers values in
  if negb (truthy_prop (song !! "title")) && negb (truthy_prop (song !! "mnemonic"))
  then inl (TitleOrMnemonicRequired (rowIndex + 2))
  else if negb (includes_prop validCategories (song !! "category"))
  then inl (InvalidCategory (rowIndex + 2) (song !! "category"))
  else inr song.

(** [Array.prototype.map] with a callback that may throw: rows are
    visited in order and the first exception ends the traversal. *)
Fixpoint mapRows (headers : list string) (rowIndex : nat)
    (rows : list (list string)) : error + list object :=
  match rows with
  | [] => inr []
  | values :: rest =>
      match toSong headers values rowIndex with
      | inl e => inl e
      | inr song =>
          match mapRows headers (S rowIndex) rest with
          | inl e => inl e
          | inr songs => inr (song :: songs)
          end
      end
  end.

(** The body of the [try] block up to the value handed to [onImport]. *)
Definition importSongs (text : string) : error + list object :=
  let rows := parseCSV text in
  if Nat.ltb (length rows) 2 then inl TooFewRows
  else
    match rows with
    | [] => inl TooFewRows (* not reached: rows has two elements or more *)
    | row0 :: slice1 =>
        let headers := map (fun h => trim (toLowerCase h)) row0 in
        if negb (bool_decide ("title" ∈ headers))
           || negb (bool_decide ("category" ∈ headers))
        then inl MissingColumns
        else mapRows headers 0 slice1
    end.

(** What [handleFileChange] does to the outside once the file is read. *)
Inductive event :=
  | OnImport (songs : list object)
  | OnClose
  | SetError (e : error).

Definition handleFileChange (text : string) : list event :=
  match importSongs text with
  | inr songs => [OnImport songs; OnClose]
  | inl e => [SetError e]
  end.

End ImportModal.


Import ImportModal.


(** ** pages/Home.tsx *)

Module Home.

(** Modelled from the spec: the type [SongCategory] of src/types, which is
    not part of the sources at hand; the three enumerated values of the
    data model, each standing for the string of the same spelling.  The
    props of the import dialog spell the same union for [category]. *)
Inductive SongCategory := angola | saoBentoPequeno | saoBentoGrande.

Definition categoryString (c : SongCategory) : string :=
  match c with
  | angola => "angola"
  | saoBentoPequeno => "saoBentoPequeno"
  | saoBentoGrande => "saoBentoGrande"
  end.

(** Modelled from the spec: the type [Song] of src/types, restricted to
    the five fields [handleExport] reads; [None] is a missing optional
    field. *)
Record Song := {
  title : string;
  category : SongCategory;
  mnemonic : option string;
  lyrics : option string;
  mediaLink : option string
}.

(** [.replace(/Q/g, 'QQ')], writing Q for the double quote character. *)
Fixpoint doubleQuotes (s : string) : string :=
  match s with
  | EmptyString => EmptyString
  | String c r =>
      if Ascii.eqb c QUOTE
      then String QUOTE (String QUOTE (doubleQuotes r))
      else String c (doubleQuotes r)
  end.

(** The template literal that puts a quote on both sides of the doubled
    value. *)
Definition quoted (value : string) : string :=
  String QUOTE (doubleQuotes value +:+ String QUOTE EmptyString).

(** [(song.mnemonic || '')]: a missing or empty value gives the empty
    string. *)
Definition orEmpty (v : option string) : string :=
  match v with
  | Some s => s
  | None => ""
  end.

(** [Array.prototype.join]. *)
Fixpoint join (sep : string) (l : list string) : string :=
  match l with
  | [] => ""
  | [x] => x
  | x :: rest => x +:+ sep +:+ join sep rest
  end.

Definition headerCells : list string :=
  ["title"; "category"; "mnemonic"; "lyrics"; "mediaLink"].

Definition songCells (song : Song) : list string :=
  [ quoted (title song);
    categoryString (category song);
    quoted (orEmpty (mnemonic song));
    quoted (orEmpty (lyrics song));
    quoted (orEmpty (mediaLink song)) ].

(** [csvContent] of [handleExport]. *)
Definition handleExport (songs : list Song) : string :=
  join (String LF EmptyString)
    (join "," headerCells :: map (fun song => join "," (songCells song)) songs).

End Home.

Import Home.

(** *** The category sections of the home page *)

Module CategorySection.

#[global] Instance SongCategory_eq_dec : EqDecision SongCategory.
Proof. solve_decision. Defined.

Section Collation.
(** [a.localeCompare(b, 'fr')]: negative, zero or positive.  The French
    collation belongs to the platform and is left open. *)
Context (localeCompare : string -> string -> Z).

(** [(a, b) => a.title.localeCompare(b.title, 'fr')] *)
Definition compareTitles (a b : Song) : Z :=
  localeCompare (title a) (title b).

(** [Array.prototype.sort] with a comparator.  The language fixes the
    result for a consistent comparator, sorted and stable, and leaves
    the order open otherwise; the stable insertion sort below gives that
    result. *)
Fixpoint insert (x : Song) (sorted : list Song) : list Song :=
  match sorted with
  | [] => [x]
  | y :: rest =>
      if Z.leb (compareTitles x y) 0 then x :: y :: rest
      else y :: insert x rest
  end.

Fixpoint sort (songs : list Song) : list Song :=
  match songs with
  | [] => []
  | x :: rest => insert x (sort rest)
  end.

(** [songs.filter(song => song.category === category).sort(...)] *)
Definition categorySongs (songs : list Song) (c : SongCategory) : list Song :=
  sort (List.filter (fun song => bool_decide (category song = c)) songs).

(** What a section shows: the number in its heading and one card per
    song. *)
Definition render (songs : list Song) (c : SongCategory) : nat * list Song :=
  (length (categorySongs songs c), categorySongs songs c).

(** The three sections of the home page, in the order of the page. *)
Definition sections (songs : list Song) : list (nat * list Song) :=
  [ render songs angola; render songs saoBentoPequeno;
    render songs saoBentoGrande ].

End Collation.

End CategorySection.

(** ** The song page *)

Module SongView.

(** Modelled from the spec: a [Song] of src/types as the song page uses
    it, the five fields of the export and the opaque [id]. *)
Record StoredSong := {
  id : string;
  fields : Song
}.

(** [songs.find(s => s.id === id)], [id] coming from the route and
    possibly undefined. *)
Fixpoint find (songs : list StoredSong) (routeId : option string)
  : option StoredSong :=
  match songs with
  | [] => None
  | s :: rest =>
      if bool_decide (Some (id s) = routeId) then Some s else find rest routeId
  end.

(** The parts of the page that depend on the song. *)
Inductive block :=
  | Heading (title : string)
  | Mnemonic (text : string)
  | Lyrics (text : string)
  | MediaLink (href : string).

(** [{song.mnemonic && (...)}] and the like: the part is there when the
    value is neither missing nor empty. *)
Definition whenTruthy (v : option string) (part : string -> block) : list block :=
  match v with
  | Some s => if truthy s then [part s] else []
  | None => []
  end.

(** The component: [null] when no song is found. *)
Definition SongView (songs : list StoredSong) (routeId : option string)
  : option (list block) :=
  match find songs routeId with
  | None => None
  | Some s =>
      Some (Heading (title (fields s))
            :: whenTruthy (mnemonic (fields s)) Mnemonic
            ++ whenTruthy (lyrics (fields s)) Lyrics
            ++ whenTruthy (mediaLink (fields s)) MediaLink)
  end.

End SongView.

(** ** supabase/migrations/20251016170521_create_songs_and_settings_tables.sql *)

Module Schema.

Definition uuid := positive.

(** A value of the SQL type [integer]: 32 bits, signed.  A number out
    of this range is no value of the column; a statement that carries
    one fails before any row is looked at. *)
Definition int4_range (z : Z) : bool :=
  Z.leb (-2147483648) z && Z.leb z 2147483647.

Record int4 := Int4 {
  int4_value : Z;
  int4_in_range : int4_range int4_value = true
}.

(** A value of the SQL type [text]: a string without the character of
    code 0, which a text value cannot hold.  Characters are those of the
    import, one per code unit. *)
Fixpoint no_nul (s : string) : bool :=
  match s with
  | EmptyString => true
  | String c r => negb (Ascii.eqb c "000"%char) && no_nul r
  end.

Record text := Text {
  text_value : string;
  text_no_nul : no_nul text_value = true
}.

(** The columns of [songs] and [prompter_settings], the timestamp
    columns [created_at] and [updated_at] apart, and with them the
    trigger that sets [updated_at].  A nullable column is an [option], a
    [NOT NULL] column is not: a row is what the column types and the
    [NOT NULL] constraints allow, and a statement that carries a NULL
    for a [NOT NULL] column, or a value that is none of the column's
    type, is no statement on these rows.  A column with a [DEFAULT] has
    its value in the row, given or defaulted. *)
Record songs_row := {
  id : uuid;
  songs_user_id : uuid;
  title : text;
  category : text;
  mnemonic : option text;
  lyrics : option text;
  media_link : option text
}.

Record prompter_settings_row := {
  settings_user_id : uuid;
  rotation_interval : int4;
  font_size : text;
  is_dark_mode : bool;
  use_high_contrast : bool;
  upper_case : bool
}.

(** [CHECK (category IN ('angola', 'saoBentoPequeno', 'saoBentoGrande'))] *)
Definition category_check (category : string) : bool :=
  bool_decide (category ∈ ["angola"; "saoBentoPequeno"; "saoBentoGrande"]).

(** [CHECK (font_size IN ('small', 'medium', 'large', 'xlarge'))] *)
Definition font_size_check (font_size : string) : bool :=
  bool_decide (font_size ∈ ["small"; "medium"; "large"; "xlarge"]).

(** *** Row level security

    The session that runs a statement: its database role and the value
    of [auth.uid()], which is NULL when no user is signed in. *)
Inductive role := anon | authenticated.

#[global] Instance role_eq_dec : EqDecision role.
Proof. solve_decision. Defined.

Record session := {
  session_role : role;
  auth_uid : option uuid
}.

Inductive command := SELECT | INSERT | UPDATE | DELETE.

#[global] Instance command_eq_dec : EqDecision command.
Proof. solve_decision. Defined.

(** A [CREATE POLICY] statement on a table whose rows have type [Row].
    An expression is a function to SQL's three-valued booleans, [None]
    being NULL. *)
Record policy (Row : Type) := Policy {
  pol_name : string;
  pol_for : command;
  pol_to : role;
  pol_using : option (session -> Row -> option bool);
  pol_with_check : option (session -> Row -> option bool)
}.
Arguments Policy {Row}.
Arguments pol_name {Row}.
Arguments pol_for {Row}.
Arguments pol_to {Row}.
Arguments pol_using {Row}.
Arguments pol_with_check {Row}.

(** [auth.uid() = user_id] *)
Definition auth_uid_eq {Row : Type} (user_id : Row -> uuid)
  : session -> Row -> option bool :=
  fun s r =>
    match auth_uid s with
    | Some u => Some (bool_decide (u = user_id r))
    | None => None
    end.

Definition songs_policies : list (policy songs_row) :=
  let own := auth_uid_eq songs_user_id in
  [ Policy "Users can view own songs" SELECT authenticated (Some own) None;
    Policy "Users can insert own songs" INSERT authenticated None (Some own);
    Policy "Users can update own songs" UPDATE authenticated (Some own) (Some own);
    Policy "Users can delete own songs" DELETE authenticated (Some own) None ].

Definition prompter_settings_policies : list (policy prompter_settings_row) :=
  let own := auth_uid_eq settings_user_id in
  [ Policy "Users can view own settings" SELECT authenticated (Some own) None;
    Policy "Users can insert own settings" INSERT authenticated None (Some own);
    Policy "Users can update own settings" UPDATE authenticated (Some own) (Some own) ].

(** The integrity constraints of a table that a written row can break:
    its check constraint, its primary key column and the column that
    references [auth.users(id)]. *)
Record constraints (Row : Type) := Constraints {
  row_check : Row -> bool;
  primary_key : Row -> uuid;
  references_user : Row -> uuid
}.
Arguments Constraints {Row}.
Arguments row_check {Row}.
Arguments primary_key {Row}.
Arguments references_user {Row}.

(** How PostgreSQL applies the policies of a table with
    [ENABLE ROW LEVEL SECURITY] to a session that is neither the table
    owner nor a role with BYPASSRLS (CREATE POLICY, section Description):
    the policies for the command that name the session's role are
    combined with OR; a NULL result counts as false; with no such policy
    nothing passes.  The role is taken to hold the table privileges of
    the command, as anon and authenticated do in a Supabase project; the
    migration grants and revokes none.  A USING expression decides which existing rows the
    statement can see: a row that fails it is skipped without an error.
    A WITH CHECK expression is evaluated on each row the statement would
    write: a row that fails it raises an error and the statement writes
    nothing.  When a statement also reads the rows it writes, the SELECT
    policy is applied as well; on both tables it is the same expression
    as the one of the command itself. *)
Section RLS.
Context {Row : Type} (policies : list (policy Row)).

Definition holds (e : option (session -> Row -> option bool))
    (s : session) (r : Row) : bool :=
  match e with
  | Some f => match f s r with Some b => b | None => false end
  | None => false
  end.

Definition applies (p : policy Row) (c : command) (s : session) : bool :=
  bool_decide (pol_for p = c) && bool_decide (pol_to p = session_role s).

Definition using_ok (c : command) (s : session) (r : Row) : bool :=
  existsb (fun p => applies p c s && holds (pol_using p) s r) policies.

Definition check_ok (c : command) (s : session) (r : Row) : bool :=
  existsb (fun p => applies p c s && holds (pol_with_check p) s r) policies.

(** The result of a statement: the rows it returns and the table it
    leaves, or one of two errors,
    [new row violates row-level security policy for table], or the error
    of an integrity constraint of the table (check constraint, primary
    key, foreign key). *)
Inductive outcome :=
  | Done (returned : list Row) (table : list Row)
  | RlsViolation
  | ConstraintViolation.

Definition select (s : session) (where_ : Row -> bool) (table : list Row)
  : outcome :=
  Done (List.filter (fun r => using_ok SELECT s r && where_ r) table) table.

Definition delete (s : session) (where_ : Row -> bool) (table : list Row)
  : outcome :=
  let target r := using_ok DELETE s r && where_ r in
  Done (List.filter target table) (List.filter (fun r => negb (target r)) table).

(** The rows of [auth.users] are not part of the migration: [users] are
    the ids present there when the statement runs. *)
Context (users : list uuid) (cs : constraints Row).

(** The constraints PostgreSQL tests on a row as it writes it, after the
    WITH CHECK policies: the check constraint, then the primary key
    against the rows the table holds at that moment. *)
Definition admits (new : Row) (others : list Row) : bool :=
  row_check cs new &&
  negb (bool_decide (primary_key cs new ∈ map (primary_key cs) others)).

(** The foreign key to [auth.users], tested when the statement ends, on
    an inserted row and on an updated row whose reference changed. *)
Definition references_ok (old : option Row) (new : Row) : bool :=
  match old with
  | Some r =>
      bool_decide (references_user cs new = references_user cs r)
      || bool_decide (references_user cs new ∈ users)
  | None => bool_decide (references_user cs new ∈ users)
  end.

Definition insert (s : session) (new : Row) (table : list Row) : outcome :=
  if negb (check_ok INSERT s new) then RlsViolation
  else if admits new table && references_ok None new
  then Done [new] (table ++ [new])
  else ConstraintViolation.

(** The rows of an update are visited in the order of the table.
    [visited] holds the rows already seen, as the statement leaves them,
    [written] the new rows among them; the first row that fails stops
    the statement with its error. *)
Fixpoint update_from (s : session) (where_ : Row -> bool) (set : Row -> Row)
    (written visited rest : list Row) : outcome :=
  match rest with
  | [] => Done written visited
  | r :: rest' =>
      if using_ok UPDATE s r && where_ r then
        if negb (check_ok UPDATE s (set r)) then RlsViolation
        else if admits (set r) (visited ++ rest')
        then update_from s where_ set
               (written ++ [set r]) (visited ++ [set r]) rest'
        else ConstraintViolation
      else update_from s where_ set written (visited ++ [r]) rest'
  end.

Definition update (s : session) (where_ : Row -> bool) (set : Row -> Row)
    (table : list Row) : outcome :=
  match update_from s where_ set [] [] table with
  | Done written table' =>
      if forallb (fun r => negb (using_ok UPDATE s r && where_ r)
                           || references_ok (Some r) (set r)) table
      then Done written table'
      else ConstraintViolation
  | refused => refused
  end.
End RLS.

Arguments Done {Row}.
Arguments RlsViolation {Row}.
Arguments ConstraintViolation {Row}.

(** [CHECK], [PRIMARY KEY] and [REFERENCES auth.users(id)] of the two
    tables. *)
Definition songs_constraints : constraints songs_row :=
  Constraints (fun r => category_check (text_value (category r)))
    id songs_user_id.

Definition prompter_settings_constraints : constraints prompter_settings_row :=
  Constraints (fun r => font_size_check (text_value (font_size r)))
    settings_user_id settings_user_id.

End Schema.

(** ** Predicates used in the statements *)

(** The three shapes the un-quoting pass rewrites. *)
Definition startsWithQuote (s : string) : bool :=
  match s with
  | String c _ => Ascii.eqb c QUOTE
  | EmptyString => false
  end.

Fixpoint endsWithQuote (s : string) : bool :=
  match s with
  | EmptyString => false
  | String c EmptyString => Ascii.eqb c QUOTE
  | String _ r => endsWithQuote r
  end.

Fixpoint hasDoubledQuote (s : string) : bool :=
  match s with
  | EmptyString => false
  | String c r =>
      match r with
      | String d _ => (Ascii.eqb c QUOTE && Ascii.eqb d QUOTE) || hasDoubledQuote r
      | EmptyString => false
      end
  end.

(** A value the un-quoting pass has nothing to do on. *)
Definition settled (s : string) : bool :=
  negb (startsWithQuote s) && negb (endsWithQuote s) && negb (hasDoubledQuote s).

Fixpoint hasQuote (s : string) : bool :=
  match s with
  | EmptyString => false
  | String c r => Ascii.eqb c QUOTE || hasQuote r
  end.

(** The line number carried by a per-row message. *)
Definition errorLine (e : error) : option nat :=
  match e with
  | TitleOrMnemonicRequired line => Some line
  | InvalidCategory line _ => Some line
  | TooFewRows | MissingColumns => None
  end.

(** [song.title] and the like read as a string, undefined as empty. *)
Definition field (song : object) (name : string) : string :=
  or_empty (song !! name).

(** The header cells as [handleFileChange] normalises them. *)
Definition normalise (row0 : list string) : list string :=
  map (fun h => trim (toLowerCase h)) row0.

(** What [parseCSV] keeps of the text between an opening and a closing
    quote once doubled quotes are read back: every character, except a
    line feed that directly follows a carriage return (the turn of the
    loop that appends the carriage return also runs the extra [i++]). *)
Fixpoint inQuotesData (v : string) : string :=
  match v with
  | EmptyString => EmptyString
  | String c r =>
      String c
        match r with
        | String d r' =>
            if Ascii.eqb c CR && Ascii.eqb d LF
            then inQuotesData r' else inQuotesData r
        | EmptyString => EmptyString
        end
  end.

(** A carriage return directly followed by a line feed occurs in [v]. *)
Fixpoint hasCRLF (v : string) : bool :=
  match v with
  | EmptyString => false
  | String c r =>
      match r with
      | String d _ => (Ascii.eqb c CR && Ascii.eqb d LF) || hasCRLF r
      | EmptyString => false
      end
  end.

(** No character of [w] is one the parser treats specially. *)
Fixpoint plain (w : string) : bool :=
  match w with
  | EmptyString => true
  | String c r =>
      negb (Ascii.eqb c CR) && negb (Ascii.eqb c LF) &&
      negb (Ascii.eqb c QUOTE) && negb (Ascii.eqb c COMMA) && plain r
  end.

(** The cells [parseCSV] reads back from the exported row of a song. *)
Definition parsedCells (song : Song) : list string :=
  [ inQuotesData (title song);
    categoryString (category song);
    inQuotesData (orEmpty (mnemonic song));
    inQuotesData (orEmpty (lyrics song));
    inQuotesData (orEmpty (mediaLink song)) ].

(** The rows of an export after the header row, each behind its line
    feed. *)
Fixpoint songLines (songs : list Song) : string :=
  match songs with
  | [] => EmptyString
  | song :: rest => String LF (join "," (songCells song) +:+ songLines rest)
  end.

(** One character of a value as the export writes it inside quotes. *)
Definition doubleChar (c : ascii) : list ascii :=
  if Ascii.eqb c QUOTE then [QUOTE; QUOTE] else [c].

(** The row of a song in the words of the specification: every field
    value, the category included, is wrapped in double quotes. *)
Definition specCells (song : Song) : list string :=
  [ quoted (title song);
    quoted (categoryString (category song));
    quoted (orEmpty (mnemonic song));
    quoted (orEmpty (lyrics song));
    quoted (orEmpty (mediaLink song)) ].

(** A value that the import gives back as the export got it: the
    un-quoting pass finds nothing to do on it, and it holds no carriage
    return directly followed by a line feed. *)
Definition survives (v : string) : bool :=
  settled v && negb (hasCRLF v).

(** The song meets the presence rule of the import and its title,
    mnemonic and lyrics survive. *)
Definition importable (song : Song) : bool :=
  (truthy (title song) || truthy (orEmpty (mnemonic song))) &&
  survives (title song) && survives (orEmpty (mnemonic song)) &&
  survives (orEmpty (lyrics song)).

(** The record agrees with the song on title, category, mnemonic and
    lyrics, a missing optional field counting as the empty string. *)
Definition sameFour (song : Song) (record : object) : Prop :=
  record !! "title" = Some (title song) /\
  record !! "category" = Some (categoryString (category song)) /\
  record !! "mnemonic" = Some (orEmpty (mnemonic song)) /\
  record !! "lyrics" = Some (orEmpty (lyrics song)).

(** The header cells of an export as the import normalises them. *)
Definition exportHeaders : list string :=
  ["title"; "category"; "mnemonic"; "lyrics"; "medialink"].

(** The session is an authenticated one whose [auth.uid()] is [owner]. *)
Definition owns (s : Schema.session) (owner : Schema.uuid) : bool :=
  bool_decide (Schema.session_role s = Schema.authenticated) &&
  bool_decide (Schema.auth_uid s = Some owner).

(** The statement was not carried out. *)
Definition refused {Row : Type} (o : @Schema.outcome Row) : Prop :=
  o = Schema.RlsViolation \/ o = Schema.ConstraintViolation.

(** Select, insert and update on a table reach the rows of the session's
    own identity and no other.  Select returns the own rows that match.
    Insert is refused with the row level security error exactly for a
    row of another identity; a row of the own identity is stored when
    the integrity constraints admit it.  An update that is carried out
    has written the own rows that match, each to a row of the own
    identity, and nothing else; an update is carried out when the table
    has no two rows of one key and the new value of each own row that
    matches has the own identity, passes the check constraint and keeps
    the key and the reference of the row; an update is refused when it
    would move a row to another identity, write a row that fails the
    check constraint, or give a row the key of a row it does not write;
    the row level security error is raised by a row that would move to
    another identity only. *)
Definition own_rows_only {Row : Type} (policies : list (Schema.policy Row))
    (cs : Schema.constraints Row)
    (user_id : Row -> Schema.uuid) (s : Schema.session) : Prop :=
  (forall where_ table,
     Schema.select policies s where_ table
     = Schema.Done
         (List.filter (fun r => owns s (user_id r) && where_ r) table) table) /\
  (forall users new table,
     Schema.insert policies users cs s new table
     = if negb (owns s (user_id new)) then Schema.RlsViolation
       else if Schema.admits cs new table
               && Schema.references_ok users cs None new
       then Schema.Done [new] (table ++ [new])
       else Schema.ConstraintViolation) /\
  (forall users where_ set table,
     (forall written table',
        Schema.update policies users cs s where_ set table
        = Schema.Done written table' ->
        written
        = map set (List.filter (fun r => owns s (user_id r) && where_ r) table) /\
        table'
        = map (fun r => if owns s (user_id r) && where_ r then set r else r) table /\
        Forall (fun r => owns s (user_id r) = true) written) /\
     ((forall r, r ∈ table -> owns s (user_id r) && where_ r = true ->
         owns s (user_id (set r)) = true /\
         Schema.row_check cs (set r) = true /\
         Schema.primary_key cs (set r) = Schema.primary_key cs r /\
         Schema.references_user cs (set r) = Schema.references_user cs r) ->
      NoDup (map (Schema.primary_key cs) table) ->
      Schema.update policies users cs s where_ set table
      = Schema.Done
          (map set (List.filter (fun r => owns s (user_id r) && where_ r) table))
          (map (fun r => if owns s (user_id r) && where_ r then set r else r)
             table)) /\
     ((exists r, r ∈ table /\ owns s (user_id r) && where_ r = true /\
                 (owns s (user_id (set r)) = false \/
                  Schema.row_check cs (set r) = false)) ->
      refused (Schema.update policies users cs s where_ set table)) /\
     ((exists r r', r ∈ table /\ r' ∈ table /\
                    owns s (user_id r) && where_ r = true /\
                    owns s (user_id r') && where_ r' = false /\
                    Schema.primary_key cs (set r) = Schema.primary_key cs r') ->
      refused (Schema.update policies users cs s where_ set table)) /\
     (Schema.update policies users cs s where_ set table = Schema.RlsViolation ->
      exists r, r ∈ table /\ owns s (user_id r) && where_ r = true /\
                owns s (user_id (set r)) = false)).

(** The row has no cell under the column [name]: the last header cell
    of that name stands at an index the row does not reach. *)
Definition missingColumn (headers values : list string) (name : string) : Prop :=
  exists i header,
    length values <= i /\ headers !! i = Some header /\ trim header = name /\
    forall j h, i < j -> headers !! j = Some h -> trim h <> name.

(** Every character of [s] passes the test [p]. *)
Fixpoint all_chars (p : ascii -> bool) (s : string) : bool :=
  match s with
  | EmptyString => true
  | String c r => p c && all_chars p r
  end.

(** The characters that end a cell or a row outside quotes. *)
Definition separator (c : ascii) : bool :=
  Ascii.eqb c COMMA || Ascii.eqb c CR || Ascii.eqb c LF.

(** A cell without comma, carriage return and line feed. *)
Definition unbroken (cell : string) : Prop :=
  all_chars (fun c => negb (separator c)) cell = true.

(** A text with every carriage return turned into a line feed. *)
Fixpoint unixLines (text : string) : string :=
  match text with
  | EmptyString => EmptyString
  | String c r => String (if Ascii.eqb c CR then LF else c) (unixLines r)
  end.

(** The collation ranks [a] before [b] or level with it. *)
Definition ranksBefore (localeCompare : string -> string -> Z) (a b : Song) : Prop :=
  (CategorySection.compareTitles localeCompare a b <= 0)%Z.

(** The collation ranks the titles of [a] and [b] level. *)
Definition tie (localeCompare : string -> string -> Z) (a b : Song) : bool :=
  Z.leb (CategorySection.compareTitles localeCompare a b) 0 &&
  Z.leb (CategorySection.compareTitles localeCompare b a) 0.

(** A statement a client sends to a table. *)
Inductive statement (Row : Type) :=
  | Select (where_ : Row -> bool)
  | Insert (new : Row)
  | Update (where_ : Row -> bool) (set : Row -> Row)
  | Delete (where_ : Row -> bool).
Arguments Select {Row}.
Arguments Insert {Row}.
Arguments Update {Row}.
Arguments Delete {Row}.

(** The statement run on a table with its policies and constraints,
    [users] being the ids in [auth.users]. *)
Definition run {Row : Type} (users : list Schema.uuid)
    (policies : list (Schema.policy Row)) (cs : Schema.constraints Row)
    (s : Schema.session) (stmt : statement Row) (table : list Row)
  : Schema.outcome :=
  match stmt with
  | Select where_ => Schema.select policies s where_ table
  | Insert new => Schema.insert policies users cs s new table
  | Update where_ set => Schema.update policies users cs s where_ set table
  | Delete where_ => Schema.delete policies s where_ table
  end.

(** The rows a statement returns; a refused statement returns none. *)
Definition returned {Row : Type} (o : @Schema.outcome Row) : list Row :=
  match o with
  | Schema.Done rows _ => rows
  | Schema.RlsViolation | Schema.ConstraintViolation => []
  end.

(** The table a statement leaves; a refused statement writes nothing. *)
Definition after {Row : Type} (o : @Schema.outcome Row) (table : list Row)
  : list Row :=
  match o with
  | Schema.Done _ table' => table'
  | Schema.RlsViolation | Schema.ConstraintViolation => table
  end.

(** The table after a sequence of statements of one session. *)
Fixpoint runAll {Row : Type} (users : list Schema.uuid)
    (policies : list (Schema.policy Row)) (cs : Schema.constraints Row)
    (s : Schema.session) (stmts : list (statement Row)) (table : list Row)
  : list Row :=
  match stmts with
  | [] => table
  | stmt :: rest =>
      runAll users policies cs s rest
        (after (run users policies cs s stmt table) table)
  end.

(** The rows of [table] that the session does not own. *)
Definition foreign {Row : Type} (user_id : Row -> Schema.uuid)
    (s : Schema.session) (table : list Row) : list Row :=
  List.filter (fun r => negb (owns s (user_id r))) table.

(** ** Induction two characters at a time *)

Lemma string_pair_ind (P : string -> Prop) :
  P EmptyString ->
  (forall c, P (String c EmptyString)) ->
  (forall c d r, P r -> P (String d r) -> P (String c (String d r))) ->
  forall s, P s.
Proof.
  intros H0 H1 H2 s.
  assert (P s /\ forall c, P (String c s)) as [Hs _]; [|exact Hs].
  induction s as [|d r [IHr IHc]].
  - split; [exact H0 | exact H1].
  - split; [apply IHc | intros c; apply H2; [exact IHr | apply IHc]].
Qed.

(** ** The un-quoting pass *)

Lemma stripLeadingQuote_id s :
  startsWithQuote s = false -> stripLeadingQuote s = s.
Proof. destruct s as [|c r]; simpl; [reflexivity|]. now intros ->. Qed.

Lemma stripTrailingQuote_id s :
  endsWithQuote s = false -> stripTrailingQuote s = s.
Proof.
  induction s as [|c r IH]; [reflexivity|].
  destruct r as [|d r'].
  - cbn [endsWithQuote stripTrailingQuote]. now intros ->.
  - change (stripTrailingQuote (String c (String d r')))
      with (String c (stripTrailingQuote (String d r'))).
    change (endsWithQuote (String c (String d r')))
      with (endsWithQuote (String d r')).
    intros H. f_equal. apply IH, H.
Qed.

Lemma undouble_id s : hasDoubledQuote s = false -> undouble s = s.
Proof.
  induction s as [|c r IH]; [reflexivity|].
  destruct r as [|d r']; [reflexivity|].
  change (undouble (String c (String d r')))
    with (if Ascii.eqb c QUOTE && Ascii.eqb d QUOTE
          then String QUOTE (undouble r')
          else String c (undouble (String d r'))).
  change (hasDoubledQuote (String c (String d r')))
    with ((Ascii.eqb c QUOTE && Ascii.eqb d QUOTE)
          || hasDoubledQuote (String d r')).
  intros H. apply orb_false_iff in H as [-> H].
  f_equal. apply IH, H.
Qed.

Lemma unquote_settled s : settled s = true -> unquote s = s.
Proof.
  unfold settled, unquote. intros H.
  apply andb_true_iff in H as [H H3]. apply andb_true_iff in H as [H1 H2].
  apply negb_true_iff in H1, H2, H3.
  rewrite (stripLeadingQuote_id _ H1), (stripTrailingQuote_id _ H2).
  apply undouble_id, H3.
Qed.

Lemma stripLeadingQuote_length s :
  String.length (stripLeadingQuote s) <= String.length s /\
  (startsWithQuote s = true ->
   String.length (stripLeadingQuote s) < String.length s).
Proof.
  destruct s as [|c r]; [simpl; split; [lia | discriminate]|].
  cbn [stripLeadingQuote startsWithQuote].
  destruct (Ascii.eqb c QUOTE); cbn [String.length]; split;
    (lia || discriminate).
Qed.

Lemma stripTrailingQuote_length s :
  String.length (stripTrailingQuote s) <= String.length s /\
  (endsWithQuote s = true ->
   String.length (stripTrailingQuote s) < String.length s).
Proof.
  induction s as [|c r [IH1 IH2]]; [simpl; split; [lia | discriminate]|].
  destruct r as [|d r'].
  - cbn [endsWithQuote stripTrailingQuote].
    destruct (Ascii.eqb c QUOTE); cbn [String.length]; split;
      (lia || discriminate).
  - change (stripTrailingQuote (String c (String d r')))
      with (String c (stripTrailingQuote (String d r'))).
    change (endsWithQuote (String c (String d r')))
      with (endsWithQuote (String d r')).
    set (t := String d r') in *. cbn [String.length].
    split; [lia|]. intros H. specialize (IH2 H). lia.
Qed.

Lemma undouble_length s :
  String.length (undouble s) <= String.length s /\
  (hasDoubledQuote s = true ->
   String.length (undouble s) < String.length s).
Proof.
  induction s as [| c | c d r [IHr1 IHr2] [IHd1 IHd2]] using string_pair_ind.
  - simpl; split; [lia | discriminate].
  - simpl; split; [lia | discriminate].
  - change (undouble (String c (String d r)))
      with (if Ascii.eqb c QUOTE && Ascii.eqb d QUOTE
            then String QUOTE (undouble r)
            else String c (undouble (String d r))).
    change (hasDoubledQuote (String c (String d r)))
      with ((Ascii.eqb c QUOTE && Ascii.eqb d QUOTE)
            || hasDoubledQuote (String d r)).
    set (t := String d r) in *.
    destruct (Ascii.eqb c QUOTE && Ascii.eqb d QUOTE).
    + subst t. cbn [String.length] in *. split; [lia | intros _; lia].
    + rewrite orb_false_l. cbn [String.length].
      split; [lia|]. intros H. specialize (IHd2 H). lia.
Qed.

(** The pass leaves a value as it is only when there was nothing to
    strip and nothing to collapse. *)
Lemma unquote_fixed_settled s : unquote s = s -> settled s = true.
Proof.
  intros Hfix. unfold settled.
  assert (Hlen : String.length (unquote s) = String.length s) by now rewrite Hfix.
  unfold unquote in Hlen.
  pose proof (stripLeadingQuote_length s) as [L1 L2].
  pose proof (stripTrailingQuote_length (stripLeadingQuote s)) as [T1 T2].
  pose proof (undouble_length (stripTrailingQuote (stripLeadingQuote s))) as [U1 U2].
  destruct (startsWithQuote s) eqn:E1; [specialize (L2 eq_refl); lia|].
  rewrite (stripLeadingQuote_id _ E1) in *.
  destruct (endsWithQuote s) eqn:E2; [specialize (T2 eq_refl); lia|].
  rewrite (stripTrailingQuote_id _ E2) in *.
  destruct (hasDoubledQuote s) eqn:E3; [specialize (U2 eq_refl); lia|].
  reflexivity.
Qed.

Lemma settled_no_quote s : hasQuote s = false -> settled s = true.
Proof.
  intros H. unfold settled.
  assert (startsWithQuote s = false) as ->.
  { destruct s; simpl in *; [reflexivity|]. now apply orb_false_iff in H as [-> _]. }
  assert (endsWithQuote s = false) as ->.
  { induction s as [|c r IH]; [reflexivity|].
    simpl in H. apply orb_false_iff in H as [Hc Hr].
    destruct r as [|d r']; [exact Hc|].
    change (endsWithQuote (String c (String d r')))
      with (endsWithQuote (String d r')).
    apply IH, Hr. }
  assert (hasDoubledQuote s = false) as ->; [|reflexivity].
  induction s as [|c r IH]; [reflexivity|].
  simpl in H. apply orb_false_iff in H as [Hc Hr].
  destruct r as [|d r']; [reflexivity|].
  change (hasDoubledQuote (String c (String d r')))
    with ((Ascii.eqb c QUOTE && Ascii.eqb d QUOTE)
          || hasDoubledQuote (String d r')).
  rewrite Hc. apply IH, Hr.
Qed.



(** ** The row to record mapping *)

Section Rows.
Context (headers : list string).

Lemma mapRows_failure rows : forall n e,
  mapRows headers n rows = inl e ->
  exists i values,
    rows !! i = Some values /\ toSong headers values (n + i) = inl e /\
    forall j v, j < i -> rows !! j = Some v ->
      exists song, toSong headers v (n + j) = inr song.
Proof.
  induction rows as [|values rest IH]; intros n e; cbn [mapRows]; [discriminate|].
  destruct (toSong headers values n) as [e0|song] eqn:E0.
  - intros [= <-]. exists 0, values. rewrite Nat.add_0_r.
    repeat split; [exact E0 | intros j v Hj; lia].
  - destruct (mapRows headers (S n) rest) as [e1|songs] eqn:E1; [|discriminate].
    intros [= <-]. destruct (IH _ _ E1) as (i & v & Hi & Hv & Hbefore).
    exists (S i), v. rewrite Nat.add_succ_r. repeat split; [exact Hi | exact Hv |].
    intros [|j] w Hj Hw.
    + injection Hw as <-. rewrite Nat.add_0_r. eauto.
    + rewrite Nat.add_succ_r. apply (Hbefore j w); [lia | exact Hw].
Qed.

Lemma mapRows_success rows : forall n songs,
  mapRows headers n rows = inr songs ->
  forall i values, rows !! i = Some values ->
    exists song, toSong headers values (n + i) = inr song /\ songs !! i = Some song.
Proof.
  induction rows as [|values rest IH]; intros n songs; cbn [mapRows].
  - intros _ i v Hi. destruct i; discriminate.
  - destruct (toSong headers values n) as [e0|song] eqn:E0; [discriminate|].
    destruct (mapRows headers (S n) rest) as [e1|songs'] eqn:E1; [discriminate|].
    intros [= <-] [|i] v Hi.
    + injection Hi as <-. rewrite Nat.add_0_r. eauto.
    + rewrite Nat.add_succ_r. apply (IH _ _ E1 i v Hi).
Qed.

Lemma mapRows_length rows : forall n songs,
  mapRows headers n rows = inr songs -> length songs = length rows.
Proof.
  induction rows as [|values rest IH]; intros n songs; cbn [mapRows].
  - now intros [= <-].
  - destruct (toSong headers values n); [discriminate|].
    destruct (mapRows headers (S n) rest) eqn:E1; [discriminate|].
    intros [= <-]. cbn [length]. f_equal. eapply IH, E1.
Qed.

(** A failing row anywhere makes the traversal stop at the first failing
    row, with that row's message. *)
Lemma mapRows_stops rows n i values e :
  rows !! i = Some values -> toSong headers values (n + i) = inl e ->
  exists i0 v0 e0,
    i0 <= i /\ rows !! i0 = Some v0 /\ toSong headers v0 (n + i0) = inl e0 /\
    (forall j v, j < i0 -> rows !! j = Some v ->
       exists song, toSong headers v (n + j) = inr song) /\
    mapRows headers n rows = inl e0.
Proof.
  intros Hi He.
  destruct (mapRows headers n rows) as [e0|songs] eqn:E.
  - destruct (mapRows_failure _ _ _ E) as (i0 & v0 & Hi0 & Hv0 & Hbefore).
    exists i0, v0, e0. repeat split; try assumption.
    destruct (le_lt_dec i0 i) as [Hle|Hlt]; [exact Hle|].
    destruct (Hbefore i values Hlt Hi) as [song Hs]. congruence.
  - destruct (mapRows_success _ _ _ E i values Hi) as (song & Hs & _). congruence.
Qed.

(** Reading a cell beyond the end of a row gives the empty string, as
    reading a cell of the row padded with empty strings does. *)
Lemma or_empty_pad (values : list string) k i :
  or_empty ((values ++ replicate k EmptyString) !! i) = or_empty (values !! i).
Proof.
  destruct (le_lt_dec (length values) i) as [Hge|Hlt].
  - rewrite (lookup_ge_None_2 values i Hge), lookup_app_r by exact Hge.
    destruct (replicate k EmptyString !! (i - length values)) as [s|] eqn:E;
      [|reflexivity].
    apply lookup_replicate in E as [-> _]. reflexivity.
  - now rewrite lookup_app_l.
Qed.

Lemma forEach_header_pad values k hs : forall index song,
  forEach_header (values ++ replicate k EmptyString) index hs song
  = forEach_header values index hs song.
Proof.
  induction hs as [|h rest IH]; intros index song; cbn [forEach_header];
    [reflexivity|].
  now rewrite or_empty_pad, IH.
Qed.

Lemma assign_lookup_ne (name key value : string) (song : object) :
  name <> key -> assign name value song !! key = song !! key.
Proof.
  intros Hne. unfold assign.
  destruct (String.eqb name "__proto__"); [reflexivity|].
  now apply lookup_insert_ne.
Qed.

Lemma assign_lookup_eq (name value : string) (song : object) :
  name <> "__proto__" -> assign name value song !! name = Some value.
Proof.
  intros Hne. unfold assign. apply String.eqb_neq in Hne. rewrite Hne.
  apply lookup_insert_eq.
Qed.

Lemma forEach_header_other values hs key : forall index (song : object),
  (forall h, h ∈ hs -> trim h <> key) ->
  forEach_header values index hs song !! key = song !! key.
Proof.
  induction hs as [|h rest IH]; intros index song Hno; cbn [forEach_header];
    [reflexivity|].
  rewrite IH.
  - apply assign_lookup_ne, Hno. left.
  - intros h' Hin. apply Hno. now right.
Qed.

(** The property set for a header cell holds the un-quoted cell of the
    same index, unless a later header cell has the same name. *)
Lemma forEach_header_lookup values hs : forall index (song : object) i header,
  hs !! i = Some header ->
  (forall j h, i < j -> hs !! j = Some h -> trim h <> trim header) ->
  trim header <> "__proto__" ->
  forEach_header values index hs song !! trim header
  = Some (unquote (or_empty (values !! (index + i)))).
Proof.
  induction hs as [|h rest IH]; intros index song i header Hi Hlater Hname;
    [destruct i; discriminate|].
  cbn [forEach_header]. destruct i as [|i].
  - injection Hi as ->. rewrite Nat.add_0_r, forEach_header_other.
    + now apply assign_lookup_eq.
    + intros h' Hin. apply list_elem_of_lookup in Hin as [j Hj].
      apply (Hlater (S j) h'); [lia | exact Hj].
  - rewrite Nat.add_succ_r. apply (IH (S index) _ i header Hi); [|exact Hname].
    intros j h' Hj Hh'. apply (Hlater (S j) h'); [lia | exact Hh'].
Qed.

End Rows.

Lemma truthy_prop_false v : truthy_prop v = false <-> or_empty v = EmptyString.
Proof.
  destruct v as [[|c r]|]; simpl; split; (reflexivity || discriminate).
Qed.

Lemma includes_validCategories v :
  includes_prop validCategories v = true <->
  exists c, v = Some c /\
    (c = "angola" \/ c = "saoBentoPequeno" \/ c = "saoBentoGrande").
Proof.
  unfold includes_prop, validCategories. destruct v as [c|].
  - rewrite bool_decide_eq_true. split.
    + intros H. exists c. split; [reflexivity|].
      repeat (apply elem_of_cons in H as [H|H]; [auto|]).
      now apply elem_of_nil in H.
    + intros (c' & [= <-] & [-> | [-> | ->]]);
        repeat (first [apply list_elem_of_here | apply list_elem_of_further]).
  - split; [discriminate | intros (c & H & _); discriminate].
Qed.

(** ** The parser on the examples of the specification *)

Example parse_two_rows :
  parseCSV ("a,b" +:+ String LF "c,d") = [["a"; "b"]; ["c"; "d"]].
Proof. reflexivity. Qed.

Example parse_doubled_quote :
  parseCSV (quoted (String "a" (String QUOTE "b")))
  = [[String "a" (String QUOTE "b")]].
Proof. reflexivity. Qed.

Example parse_blank_lines_skipped :
  parseCSV ("a" +:+ String CR (String LF (String LF "b"))) = [["a"]; ["b"]].
Proof. reflexivity. Qed.

Example import_header_only :
  handleFileChange "title,category" = [SetError TooFewRows].
Proof. reflexivity. Qed.

Example import_without_category_column :
  handleFileChange ("title,mnemonic" +:+ String LF "A,b")
  = [SetError MissingColumns].
Proof. reflexivity. Qed.

Example import_invalid_category_first_row :
  handleFileChange ("Title , CATEGORY" +:+ String LF "A,foo")
  = [SetError (InvalidCategory 2 (Some "foo"))].
Proof. reflexivity. Qed.

(** ** Scanning an exported text *)

Lemma sapp_cons (c : ascii) (s t : string) :
  String c s +:+ t = String c (s +:+ t).
Proof. reflexivity. Qed.

Lemma sapp_nil_r (s : string) : s +:+ EmptyString = s.
Proof.
  induction s as [|c r IH]; [reflexivity|]. now rewrite sapp_cons, IH.
Qed.

Lemma sapp_assoc (s t u : string) : (s +:+ t) +:+ u = s +:+ (t +:+ u).
Proof.
  induction s as [|c r IH]; [reflexivity|]. now rewrite !sapp_cons, IH.
Qed.

Lemma add_char_app (s : string) (c : ascii) (t : string) :
  add_char s c +:+ t = s +:+ String c t.
Proof. unfold add_char. now rewrite sapp_assoc. Qed.

Lemma next_is_first_char (rest : string) (c : ascii) :
  first_char rest <> Some c -> next_is (first_char rest) c = false.
Proof.
  destruct rest as [|d r]; [reflexivity|]. cbn [first_char next_is].
  intros H. destruct (Ascii.eqb_spec d c) as [->|]; [now destruct H | reflexivity].
Qed.

Lemma scan_cons (st : state) (c : ascii) (rest : string) :
  scan st (String c rest)
  = let (st', twice) := loop_body st c (first_char rest) in
    match twice, rest with
    | true, String _ rest' => scan st' rest'
    | _, _ => scan st' rest
    end.
Proof. reflexivity. Qed.

(** A turn of the loop inside quotes. *)
Lemma loop_body_in_quotes (st : state) (c : ascii) (next : option ascii) :
  inQuotes st = true ->
  loop_body st c next
  = if Ascii.eqb c QUOTE then
      if next_is next QUOTE
      then (State (result st) (row st) true (add_char (currentValue st) QUOTE), true)
      else (State (result st) (row st) false (currentValue st), false)
    else (State (result st) (row st) true (add_char (currentValue st) c),
          Ascii.eqb c CR && next_is next LF).
Proof.
  intros Hq. unfold loop_body. rewrite Hq.
  destruct (Ascii.eqb_spec c CR) as [->|_]; [reflexivity|].
  destruct (Ascii.eqb_spec c LF) as [->|_]; [reflexivity|].
  destruct (Ascii.eqb_spec c QUOTE) as [->|_]; [reflexivity|].
  cbn [orb andb negb]. now rewrite andb_false_r.
Qed.

Lemma scan_comma (st : state) (rest : string) :
  inQuotes st = false ->
  scan st (String COMMA rest)
  = scan (State (result st) (row st ++ [currentValue st]) false EmptyString) rest.
Proof.
  destruct st as [res rw q cv]. cbn [inQuotes]. intros ->. reflexivity.
Qed.

Lemma scan_LF (st : state) (rest : string) :
  inQuotes st = false ->
  scan st (String LF rest) = scan (State (flush st) [] false EmptyString) rest.
Proof.
  destruct st as [res rw q cv]. cbn [inQuotes]. intros ->. reflexivity.
Qed.

Lemma scan_plain (w : string) : forall (st : state) (rest : string),
  inQuotes st = false -> plain w = true ->
  scan st (w +:+ rest)
  = scan (State (result st) (row st) false (currentValue st +:+ w)) rest.
Proof.
  induction w as [|c r IH]; intros [res rw q cv] rest; cbn [inQuotes result row currentValue].
  - intros -> _. now rewrite sapp_nil_r.
  - intros -> Hp. cbn [plain] in Hp.
    repeat (apply andb_true_iff in Hp as [Hp ?]).
    apply negb_true_iff in Hp.
    repeat match goal with H : negb _ = true |- _ => apply negb_true_iff in H end.
    change (String c r +:+ rest) with (String c (r +:+ rest)).
    rewrite scan_cons. unfold loop_body.
    repeat match goal with H : Ascii.eqb c _ = false |- _ => rewrite H end.
    cbn [orb andb inQuotes result row currentValue].
    rewrite IH by (reflexivity || assumption).
    cbn [inQuotes result row currentValue]. now rewrite add_char_app.
Qed.

Lemma inQuotesData_cons (c : ascii) (r : string) :
  Ascii.eqb c CR = false ->
  inQuotesData (String c r) = String c (inQuotesData r).
Proof.
  intros H. destruct r as [|d r']; [reflexivity|].
  change (inQuotesData (String c (String d r')))
    with (String c (if Ascii.eqb c CR && Ascii.eqb d LF
                    then inQuotesData r' else inQuotesData (String d r'))).
  now rewrite H.
Qed.

Lemma first_char_doubleQuotes (r rest : string) (c : ascii) :
  Ascii.eqb c QUOTE = false ->
  next_is (first_char (doubleQuotes r +:+ String QUOTE rest)) c
  = match r with String d _ => Ascii.eqb d c | EmptyString => false end.
Proof.
  intros Hc. destruct r as [|d r'].
  - change (Ascii.eqb QUOTE c = false). now rewrite Ascii.eqb_sym.
  - cbn [doubleQuotes]. destruct (Ascii.eqb_spec d QUOTE) as [->|_].
    + change (Ascii.eqb QUOTE c = Ascii.eqb QUOTE c). reflexivity.
    + reflexivity.
Qed.

(** Turns of the loop inside a quoted cell. *)
Lemma scan_in_quotes_quote (st : state) (t : string) :
  inQuotes st = true ->
  scan st (String QUOTE (String QUOTE t))
  = scan (State (result st) (row st) true (add_char (currentValue st) QUOTE)) t.
Proof.
  intros Hq. now rewrite scan_cons, (loop_body_in_quotes _ _ _ Hq).
Qed.

Lemma scan_in_quotes_close (st : state) (rest : string) :
  inQuotes st = true -> first_char rest <> Some QUOTE ->
  scan st (String QUOTE rest)
  = scan (State (result st) (row st) false (currentValue st)) rest.
Proof.
  intros Hq Hrest.
  rewrite scan_cons, (loop_body_in_quotes _ _ _ Hq).
  now rewrite (next_is_first_char _ _ Hrest).
Qed.

Lemma scan_in_quotes_CRLF (st : state) (t : string) :
  inQuotes st = true ->
  scan st (String CR (String LF t))
  = scan (State (result st) (row st) true (add_char (currentValue st) CR)) t.
Proof.
  intros Hq. now rewrite scan_cons, (loop_body_in_quotes _ _ _ Hq).
Qed.

Lemma scan_in_quotes_keep (st : state) (c : ascii) (t : string) :
  inQuotes st = true -> Ascii.eqb c QUOTE = false ->
  Ascii.eqb c CR && next_is (first_char t) LF = false ->
  scan st (String c t)
  = scan (State (result st) (row st) true (add_char (currentValue st) c)) t.
Proof.
  intros Hq Hc Hcr.
  rewrite scan_cons, (loop_body_in_quotes _ _ _ Hq), Hc, Hcr.
  now destruct t.
Qed.

(** From inside a quoted cell to the character after its closing quote. *)
Lemma scan_quoted_tail (n : nat) : forall (v : string) (st : state) (rest : string),
  String.length v <= n ->
  inQuotes st = true -> first_char rest <> Some QUOTE ->
  scan st (doubleQuotes v +:+ String QUOTE rest)
  = scan (State (result st) (row st) false (currentValue st +:+ inQuotesData v)) rest.
Proof.
  induction n as [|n IH]; intros v st rest Hlen Hq Hrest.
  - destruct v; [|cbn in Hlen; lia].
    change (doubleQuotes EmptyString +:+ String QUOTE rest) with (String QUOTE rest).
    rewrite scan_in_quotes_close by assumption.
    change (inQuotesData EmptyString) with EmptyString. now rewrite sapp_nil_r.
  - destruct v as [|c r]; [apply (IH EmptyString); [cbn; lia | assumption..]|].
    cbn [String.length] in Hlen.
    destruct (Ascii.eqb_spec c QUOTE) as [->|Hnq].
    + change (doubleQuotes (String QUOTE r) +:+ String QUOTE rest)
        with (String QUOTE (String QUOTE (doubleQuotes r +:+ String QUOTE rest))).
      rewrite scan_in_quotes_quote by assumption.
      rewrite IH by (cbn [inQuotes]; (lia || assumption || reflexivity)).
      cbn [result row currentValue].
      rewrite inQuotesData_cons by reflexivity. now rewrite add_char_app.
    + apply Ascii.eqb_neq in Hnq.
      assert (E : doubleQuotes (String c r) = String c (doubleQuotes r))
        by (cbn [doubleQuotes]; now rewrite Hnq).
      rewrite E, sapp_cons. clear E.
      destruct (Ascii.eqb_spec c CR) as [->|Hncr].
      * destruct r as [|d r'].
        -- rewrite scan_in_quotes_keep by (assumption || reflexivity).
           rewrite (IH EmptyString) by (cbn [inQuotes String.length]; (lia || assumption || reflexivity)).
           cbn [result row currentValue]. now rewrite add_char_app.
        -- destruct (Ascii.eqb_spec d LF) as [->|Hnlf].
           ++ change (doubleQuotes (String LF r') +:+ String QUOTE rest)
                with (String LF (doubleQuotes r' +:+ String QUOTE rest)).
              rewrite scan_in_quotes_CRLF by assumption.
              rewrite IH by (cbn [inQuotes String.length] in *; (lia || assumption || reflexivity)).
              cbn [result row currentValue]. now rewrite add_char_app.
           ++ apply Ascii.eqb_neq in Hnlf.
              rewrite scan_in_quotes_keep;
                [ | assumption | reflexivity
                  | now rewrite first_char_doubleQuotes, Hnlf by reflexivity ].
              rewrite IH by (cbn [inQuotes String.length] in *; (lia || assumption || reflexivity)).
              cbn [result row currentValue]. rewrite add_char_app.
              do 2 f_equal.
              change (inQuotesData (String CR (String d r')))
                with (String CR (if Ascii.eqb CR CR && Ascii.eqb d LF
                                 then inQuotesData r'
                                 else inQuotesData (String d r'))).
              now rewrite Hnlf, andb_false_r.
      * apply Ascii.eqb_neq in Hncr.
        rewrite scan_in_quotes_keep;
          [ | assumption | assumption | now rewrite Hncr ].
        rewrite IH by (cbn [inQuotes]; (lia || assumption || reflexivity)).
        cbn [result row currentValue].
        rewrite inQuotesData_cons by exact Hncr. now rewrite add_char_app.
Qed.

Lemma comma_app (x : string) : "," +:+ x = String COMMA x.
Proof. reflexivity. Qed.

Lemma scan_open_quote res rw cv (t : string) :
  scan (State res rw false cv) (String QUOTE t) = scan (State res rw true cv) t.
Proof. reflexivity. Qed.

(** A quoted cell, from its opening quote to the character after its
    closing quote. *)
Lemma scan_quoted (st : state) (v rest : string) :
  inQuotes st = false -> first_char rest <> Some QUOTE ->
  scan st (quoted v +:+ rest)
  = scan (State (result st) (row st) false (currentValue st +:+ inQuotesData v)) rest.
Proof.
  destruct st as [res rw q cv]. cbn [inQuotes result row currentValue].
  intros -> Hrest. unfold quoted.
  rewrite sapp_cons, sapp_assoc, sapp_cons.
  change (EmptyString +:+ rest) with rest.
  rewrite scan_open_quote.
  now rewrite (scan_quoted_tail (String.length v)) by (assumption || reflexivity || lia).
Qed.

Lemma plain_categoryString (c : SongCategory) : plain (categoryString c) = true.
Proof. now destruct c. Qed.

Lemma first_char_songLines (songs : list Song) :
  first_char (songLines songs) <> Some QUOTE.
Proof. destruct songs; discriminate. Qed.

(** The exported row of a song, read from the start of a row. *)
Lemma scan_song_row res (song : Song) (rest : string) :
  first_char rest <> Some QUOTE ->
  scan (State res [] false EmptyString) (join "," (songCells song) +:+ rest)
  = scan (State res
            [ inQuotesData (title song);
              categoryString (category song);
              inQuotesData (orEmpty (mnemonic song));
              inQuotesData (orEmpty (lyrics song)) ]
            false (inQuotesData (orEmpty (mediaLink song)))) rest.
Proof.
  intros Hrest. unfold songCells. cbn [join].
  rewrite !sapp_assoc, !comma_app.
  rewrite scan_quoted by (reflexivity || discriminate).
  rewrite scan_comma by reflexivity. cbn [result row currentValue app].
  rewrite scan_plain by (reflexivity || apply plain_categoryString).
  rewrite scan_comma by reflexivity. cbn [result row currentValue app].
  rewrite scan_quoted by (reflexivity || discriminate).
  rewrite scan_comma by reflexivity. cbn [result row currentValue app].
  rewrite scan_quoted by (reflexivity || discriminate).
  rewrite scan_comma by reflexivity. cbn [result row currentValue app].
  rewrite scan_quoted by (reflexivity || assumption).
  reflexivity.
Qed.

Lemma scan_songLines (songs : list Song) : forall res rw cv,
  0 < length rw ->
  flush (scan (State res rw false cv) (songLines songs))
  = res ++ [rw ++ [cv]] ++ map parsedCells songs.
Proof.
  induction songs as [|song rest IH]; intros res rw cv Hrw.
  - cbn [songLines scan map]. unfold flush. cbn [currentValue row result].
    apply Nat.ltb_lt in Hrw. now rewrite Hrw, orb_true_r.
  - cbn [songLines map].
    rewrite scan_LF by reflexivity.
    rewrite scan_song_row by apply first_char_songLines.
    rewrite IH by (cbn; lia).
    unfold flush. cbn [currentValue row result].
    apply Nat.ltb_lt in Hrw. rewrite Hrw, orb_true_r.
    unfold parsedCells. now rewrite <- !app_assoc.
Qed.

Lemma join_lines (x : string) (songs : list Song) :
  join (String LF EmptyString)
    (x :: map (fun song => join "," (songCells song)) songs)
  = x +:+ songLines songs.
Proof.
  revert x. induction songs as [|song rest IH]; intros x.
  - cbn [map join songLines]. now rewrite sapp_nil_r.
  - cbn [map songLines].
    change (join (String LF EmptyString)
              (x :: join "," (songCells song)
                 :: map (fun song => join "," (songCells song)) rest))
      with (x +:+ String LF EmptyString +:+
            join (String LF EmptyString)
              (join "," (songCells song)
                 :: map (fun song => join "," (songCells song)) rest)).
    now rewrite IH.
Qed.

Lemma handleExport_lines (songs : list Song) :
  handleExport songs = "title,category,mnemonic,lyrics,mediaLink" +:+ songLines songs.
Proof. unfold handleExport. now rewrite join_lines. Qed.

(** What [parseCSV] makes of an export: the header cells, then for each
    song the five cells of [parsedCells]. *)
Lemma parseCSV_handleExport (songs : list Song) :
  parseCSV (handleExport songs) = headerCells :: map parsedCells songs.
Proof.
  rewrite handleExport_lines. unfold parseCSV.
  change (scan init ("title,category,mnemonic,lyrics,mediaLink" +:+ songLines songs))
    with (scan (State [] ["title"; "category"; "mnemonic"; "lyrics"] false "mediaLink")
            (songLines songs)).
  now rewrite scan_songLines by (cbn; lia).
Qed.

(** ** Importing an exported text *)

Lemma normalise_headerCells : normalise headerCells = exportHeaders.
Proof. reflexivity. Qed.

Lemma inQuotesData_id (v : string) : hasCRLF v = false -> inQuotesData v = v.
Proof.
  induction v as [|c r IH]; [reflexivity|].
  destruct r as [|d r']; [reflexivity|].
  change (hasCRLF (String c (String d r')))
    with ((Ascii.eqb c CR && Ascii.eqb d LF) || hasCRLF (String d r')).
  change (inQuotesData (String c (String d r')))
    with (String c (if Ascii.eqb c CR && Ascii.eqb d LF
                    then inQuotesData r' else inQuotesData (String d r'))).
  intros H. apply orb_false_iff in H as [-> H]. f_equal. apply IH, H.
Qed.

Lemma survives_read_back (v : string) :
  survives v = true -> unquote (inQuotesData v) = v.
Proof.
  unfold survives. intros H. apply andb_true_iff in H as [Hs Hc].
  apply negb_true_iff in Hc. rewrite (inQuotesData_id _ Hc).
  apply unquote_settled, Hs.
Qed.

Lemma unquote_categoryString (c : SongCategory) :
  unquote (categoryString c) = categoryString c.
Proof. now destruct c. Qed.

Lemma includes_categoryString (c : SongCategory) :
  includes_prop validCategories (Some (categoryString c)) = true.
Proof. now destruct c. Qed.

(** The record of an exported row, property by property. *)
Lemma rowObject_export (a b c d e : string) :
  rowObject exportHeaders [a; b; c; d; e]
  = <["medialink" := unquote e]>
      (<["lyrics" := unquote d]>
         (<["mnemonic" := unquote c]>
            (<["category" := unquote b]> (<["title" := unquote a]> ∅)))).
Proof. reflexivity. Qed.

Lemma rowObject_export_lookups (a b c d e : string) :
  rowObject exportHeaders [a; b; c; d; e] !! "title" = Some (unquote a) /\
  rowObject exportHeaders [a; b; c; d; e] !! "category" = Some (unquote b) /\
  rowObject exportHeaders [a; b; c; d; e] !! "mnemonic" = Some (unquote c) /\
  rowObject exportHeaders [a; b; c; d; e] !! "lyrics" = Some (unquote d) /\
  rowObject exportHeaders [a; b; c; d; e] !! "medialink" = Some (unquote e) /\
  rowObject exportHeaders [a; b; c; d; e] !! "mediaLink" = None.
Proof.
  rewrite rowObject_export.
  repeat split;
    repeat first [ rewrite lookup_insert_eq; reflexivity
                 | rewrite lookup_insert_ne by discriminate
                 | apply lookup_empty ].
Qed.

Lemma toSong_export (song : Song) (rowIndex : nat) :
  truthy (unquote (inQuotesData (title song)))
  || truthy (unquote (inQuotesData (orEmpty (mnemonic song)))) = true ->
  toSong exportHeaders (parsedCells song) rowIndex
  = inr (rowObject exportHeaders (parsedCells song)).
Proof.
  intros H. unfold toSong, parsedCells.
  destruct (rowObject_export_lookups
              (inQuotesData (title song)) (categoryString (category song))
              (inQuotesData (orEmpty (mnemonic song)))
              (inQuotesData (orEmpty (lyrics song)))
              (inQuotesData (orEmpty (mediaLink song))))
    as (-> & -> & -> & _).
  cbn [truthy_prop]. rewrite <- negb_orb, H. cbn [negb].
  now rewrite unquote_categoryString, includes_categoryString.
Qed.

Lemma importable_presence (song : Song) :
  importable song = true ->
  truthy (unquote (inQuotesData (title song)))
  || truthy (unquote (inQuotesData (orEmpty (mnemonic song)))) = true.
Proof.
  unfold importable. intros H.
  repeat (apply andb_true_iff in H as [H ?]).
  now rewrite !survives_read_back by assumption.
Qed.

Lemma sameFour_export (song : Song) :
  importable song = true ->
  sameFour song (rowObject exportHeaders (parsedCells song)).
Proof.
  unfold importable, sameFour, parsedCells. intros H.
  repeat (apply andb_true_iff in H as [H ?]).
  destruct (rowObject_export_lookups
              (inQuotesData (title song)) (categoryString (category song))
              (inQuotesData (orEmpty (mnemonic song)))
              (inQuotesData (orEmpty (lyrics song)))
              (inQuotesData (orEmpty (mediaLink song))))
    as (-> & -> & -> & -> & _).
  now rewrite unquote_categoryString, !survives_read_back by assumption.
Qed.

Lemma mapRows_export (songs : list Song) : forall n,
  Forall (fun song => importable song = true) songs ->
  mapRows exportHeaders n (map parsedCells songs)
  = inr (map (fun song => rowObject exportHeaders (parsedCells song)) songs).
Proof.
  induction songs as [|song rest IH]; intros n Hall; [reflexivity|].
  apply Forall_cons in Hall as [Hsong Hrest].
  cbn [map mapRows].
  rewrite toSong_export by apply importable_presence, Hsong.
  now rewrite IH.
Qed.

(** * The claims *)

(** C8 (as amended). The un-quoting pass strips one leading and one
    trailing double quote and collapses doubled double quotes.  Applying
    it a second time changes nothing exactly when its first result has no
    leading quote, no trailing quote and no doubled quote left; this is
    so in particular for every value without a double quote. *)
Theorem unquote_twice (s : string) :
  (unquote (unquote s) = unquote s <-> settled (unquote s) = true) /\
  (hasQuote s = false -> unquote s = s /\ unquote (unquote s) = unquote s).
Proof.
  split; [split|].
  - apply unquote_fixed_settled.
  - apply unquote_settled.
  - intros H. pose proof (unquote_settled _ (settled_no_quote _ H)) as E.
    now rewrite !E.
Qed.

(** C8, the claim as stated fails: on the five characters
    quote quote a quote quote the pass gives quote a quote, and on that
    it gives a. *)
Lemma unquote_not_idempotent :
  let s := String QUOTE (String QUOTE ("a" +:+ String QUOTE (String QUOTE EmptyString))) in
  unquote s = String QUOTE ("a" +:+ String QUOTE EmptyString) /\
  unquote (unquote s) = "a" /\
  unquote (unquote s) <> unquote s.
Proof. vm_compute. repeat split. discriminate. Qed.

(** C9. The categories the import accepts are the three values of the
    check constraint on songs.category, value for value, and the check
    constraint on prompter_settings.font_size admits the four values
    small, medium, large and xlarge and no other. *)
Theorem enumerations_agree :
  (forall c : string,
     includes_prop validCategories (Some c) = Schema.category_check c) /\
  (forall c : string,
     Schema.category_check c = true <->
     c = "angola" \/ c = "saoBentoPequeno" \/ c = "saoBentoGrande") /\
  (forall f : string,
     Schema.font_size_check f = true <->
     f = "small" \/ f = "medium" \/ f = "large" \/ f = "xlarge") /\
  NoDup validCategories /\ length validCategories = 3.
Proof.
  split; [reflexivity|]. split; [|split; [|split; [|reflexivity]]].
  - intros c. change (Schema.category_check c)
      with (includes_prop validCategories (Some c)).
    rewrite includes_validCategories. split.
    + now intros (c' & [= <-] & H).
    + intros H. now exists c.
  - intros f. unfold Schema.font_size_check. rewrite bool_decide_eq_true.
    split.
    + intros H. repeat (apply elem_of_cons in H as [H|H]; [auto|]).
      now apply elem_of_nil in H.
    + intros [-> | [-> | [-> | ->]]];
        repeat (first [apply list_elem_of_here | apply list_elem_of_further]).
  - unfold validCategories. repeat (apply NoDup_cons; split; [|]);
      [ | | | apply NoDup_nil; exact I ];
      intros H; repeat (apply elem_of_cons in H as [H|H]; [discriminate|]);
      now apply elem_of_nil in H.
Qed.

(** C10. A data row with fewer cells than the header has columns is
    mapped as the same row padded with empty strings is, without any
    failure of its own: the value read for every index past the end of
    the row is the empty string, the property of every missing column
    (the name __proto__ apart, under which a JavaScript object keeps no
    property) reads as the empty string, and the title, mnemonic and
    category checks run on the record so obtained.  The row is rejected for its
    title and mnemonic exactly when both are empty in that record, for
    its category exactly when they are not both empty and the category
    is not a listed one, and accepted otherwise; so a row that lacks the
    title column and has no mnemonic is rejected, and a row that lacks
    the category column is rejected for the empty category. *)
Theorem short_row_reads_empty (headers values : list string) (rowIndex : nat) :
  length values < length headers ->
  rowObject headers values
  = rowObject headers (values ++ replicate (length headers - length values) EmptyString) /\
  toSong headers values rowIndex
  = toSong headers (values ++ replicate (length headers - length values) EmptyString) rowIndex /\
  (forall index,
     length values <= index -> unquote (or_empty (values !! index)) = EmptyString) /\
  (forall name,
     missingColumn headers values name -> name <> "__proto__" ->
     rowObject headers values !! name = Some EmptyString) /\
  (toSong headers values rowIndex = inl (TitleOrMnemonicRequired (rowIndex + 2)) <->
   field (rowObject headers values) "title" = EmptyString /\
   field (rowObject headers values) "mnemonic" = EmptyString) /\
  (toSong headers values rowIndex
   = inl (InvalidCategory (rowIndex + 2) (rowObject headers values !! "category")) <->
   ~ (field (rowObject headers values) "title" = EmptyString /\
      field (rowObject headers values) "mnemonic" = EmptyString) /\
   ~ (exists c, rowObject headers values !! "category" = Some c /\
        (c = "angola" \/ c = "saoBentoPequeno" \/ c = "saoBentoGrande"))) /\
  (toSong headers values rowIndex = inr (rowObject headers values) <->
   ~ (field (rowObject headers values) "title" = EmptyString /\
      field (rowObject headers values) "mnemonic" = EmptyString) /\
   (exists c, rowObject headers values !! "category" = Some c /\
      (c = "angola" \/ c = "saoBentoPequeno" \/ c = "saoBentoGrande"))) /\
  (missingColumn headers values "title" ->
   field (rowObject headers values) "mnemonic" = EmptyString ->
   toSong headers values rowIndex = inl (TitleOrMnemonicRequired (rowIndex + 2))) /\
  (missingColumn headers values "category" ->
   field (rowObject headers values) "title" <> EmptyString \/
   field (rowObject headers values) "mnemonic" <> EmptyString ->
   toSong headers values rowIndex
   = inl (InvalidCategory (rowIndex + 2) (Some EmptyString))).
Proof.
  intros _.
  assert (Hpad : rowObject headers values
    = rowObject headers (values ++ replicate (length headers - length values) EmptyString)).
  { unfold rowObject. now rewrite forEach_header_pad. }
  assert (Hmissing : forall name,
     missingColumn headers values name -> name <> "__proto__" ->
     rowObject headers values !! name = Some EmptyString).
  { intros name (i & header & Hi & Hh & <- & Hlater) Hname. unfold rowObject.
    rewrite (forEach_header_lookup values headers 0 ∅ i header Hh Hlater Hname).
    now rewrite (lookup_ge_None_2 values (0 + i)) by (simpl; lia). }
  split; [exact Hpad|]. split; [unfold toSong; now rewrite <- Hpad|].
  split; [intros index Hindex; now rewrite (lookup_ge_None_2 values index)|].
  split; [exact Hmissing|].
  assert (Hverdict :
    (toSong headers values rowIndex = inl (TitleOrMnemonicRequired (rowIndex + 2)) <->
     field (rowObject headers values) "title" = EmptyString /\
     field (rowObject headers values) "mnemonic" = EmptyString) /\
    (toSong headers values rowIndex
     = inl (InvalidCategory (rowIndex + 2) (rowObject headers values !! "category")) <->
     ~ (field (rowObject headers values) "title" = EmptyString /\
        field (rowObject headers values) "mnemonic" = EmptyString) /\
     ~ (exists c, rowObject headers values !! "category" = Some c /\
          (c = "angola" \/ c = "saoBentoPequeno" \/ c = "saoBentoGrande"))) /\
    (toSong headers values rowIndex = inr (rowObject headers values) <->
     ~ (field (rowObject headers values) "title" = EmptyString /\
        field (rowObject headers values) "mnemonic" = EmptyString) /\
     (exists c, rowObject headers values !! "category" = Some c /\
        (c = "angola" \/ c = "saoBentoPequeno" \/ c = "saoBentoGrande")))).
  { unfold toSong, field.
    set (song := rowObject headers values).
    pose proof (truthy_prop_false (song !! "title")) as Ht.
    pose proof (truthy_prop_false (song !! "mnemonic")) as Hm.
    pose proof (includes_validCategories (song !! "category")) as Hc.
    destruct (truthy_prop (song !! "title")) eqn:Et;
    destruct (truthy_prop (song !! "mnemonic")) eqn:Em;
    destruct (includes_prop validCategories (song !! "category")) eqn:Ec;
    cbn [negb andb];
    (split; [|split]); split;
    try discriminate; try reflexivity;
    try (intros _; split;
         [ intros [H1 H2];
           first [apply Ht in H1; discriminate | apply Hm in H2; discriminate]
         | first [ now apply Hc
                 | intros Hex; apply Hc in Hex; discriminate ] ]);
    try (intros _; split; [now apply Ht | now apply Hm]);
    try (intros [H1 H2]; exfalso;
         first [ apply H1; split; [now apply Ht | now apply Hm]
               | apply H2, Hc; reflexivity
               | apply Hc in H2; discriminate ]);
    try (intros [H1 H2]; exfalso;
         first [ apply Ht in H1; discriminate | apply Hm in H2; discriminate ]). }
  destruct Hverdict as (V1 & V2 & V3).
  split; [exact V1|]. split; [exact V2|]. split; [exact V3|]. split.
  - intros Htitle Hmn. apply V1. split; [|exact Hmn].
    unfold field. now rewrite (Hmissing "title" Htitle) by discriminate.
  - intros Hcat Hpresent.
    pose proof (Hmissing "category" Hcat ltac:(discriminate)) as Ecat.
    rewrite <- Ecat. apply V2. split.
    + intros [H1 H2]. destruct Hpresent; contradiction.
    + rewrite Ecat. intros (c & [= <-] & [H | [H | H]]); discriminate.
Qed.

Lemma short_row_reads_empty_witness :
  length ["x"] < length ["title"; "category"; "mnemonic"] /\
  toSong ["title"; "category"; "mnemonic"] ["x"] 0
  = inl (InvalidCategory (0 + 2) (Some EmptyString)).
Proof.
  assert (H : length ["x"] < length ["title"; "category"; "mnemonic"])
    by (simpl; lia).
  split; [exact H|].
  apply (short_row_reads_empty ["title"; "category"; "mnemonic"] ["x"] 0 H).
  - exists 1, "category". split; [simpl; lia|]. split; [reflexivity|].
    split; [reflexivity|].
    intros [|[|[|j]]] h Hj Hh; try lia; [|discriminate Hh].
    injection Hh as <-. discriminate.
  - left. vm_compute. discriminate.
Defined.

(** C5. The k-th data row (k counted from 1, so the callback runs with
    rowIndex k - 1) is rejected if and only if the title and mnemonic of
    its record are both empty or its category is none of angola,
    saoBentoPequeno, saoBentoGrande; a row with an empty title, a
    non-empty mnemonic and a listed category is accepted; the message of
    a rejected row carries the line number k + 1; and when the rows
    before it are accepted, the traversal of the data rows ends with
    that message. *)
Theorem row_rejected_iff
    (headers : list string) (rows : list (list string))
    (k : nat) (values : list string) :
  1 <= k -> rows !! (k - 1) = Some values ->
  ((exists e, toSong headers values (k - 1) = inl e) <->
   (field (rowObject headers values) "title" = EmptyString /\
    field (rowObject headers values) "mnemonic" = EmptyString) \/
   ~ (exists c, rowObject headers values !! "category" = Some c /\
        (c = "angola" \/ c = "saoBentoPequeno" \/ c = "saoBentoGrande"))) /\
  (field (rowObject headers values) "title" = EmptyString ->
   field (rowObject headers values) "mnemonic" <> EmptyString ->
   (exists c, rowObject headers values !! "category" = Some c /\
      (c = "angola" \/ c = "saoBentoPequeno" \/ c = "saoBentoGrande")) ->
   toSong headers values (k - 1) = inr (rowObject headers values)) /\
  (forall e, toSong headers values (k - 1) = inl e ->
     errorLine e = Some (k + 1) /\
     ((forall j v, j < k - 1 -> rows !! j = Some v ->
         exists song, toSong headers v j = inr song) ->
      mapRows headers 0 rows = inl e)).
Proof.
  intros Hk Hrow.
  assert (Hfirst : forall e, toSong headers values (k - 1) = inl e ->
     (forall j v, j < k - 1 -> rows !! j = Some v ->
        exists song, toSong headers v j = inr song) ->
     mapRows headers 0 rows = inl e).
  { intros e He Hbefore.
    destruct (mapRows_stops headers rows 0 (k - 1) values e Hrow He)
      as (i0 & v0 & e0 & Hle & Hi0 & He0 & _ & Hmap).
    destruct (Nat.eq_dec i0 (k - 1)) as [->|Hne].
    - cbn [Nat.add] in He0. congruence.
    - destruct (Hbefore i0 v0 ltac:(lia) Hi0) as [song Hs].
      cbn [Nat.add] in He0. congruence. }
  revert Hfirst. unfold toSong, field.
  replace (k - 1 + 2) with (k + 1) by lia.
  set (song := rowObject headers values).
  pose proof (truthy_prop_false (song !! "title")) as Ht.
  pose proof (truthy_prop_false (song !! "mnemonic")) as Hm.
  pose proof (includes_validCategories (song !! "category")) as Hc.
  destruct (truthy_prop (song !! "title")) eqn:Et;
  destruct (truthy_prop (song !! "mnemonic")) eqn:Em;
  destruct (includes_prop validCategories (song !! "category")) eqn:Ec;
  cbn [negb andb]; intros Hfirst;
  (split; [split|split]);
  try (intros [e He]; discriminate);
  try (intros e He; split; [now injection He as <- | now apply Hfirst]);
  try (intros e He; discriminate);
  try (intros _; first [left; split; [now apply Ht | now apply Hm]
                       | right; intros Hex; apply Hc in Hex; discriminate]);
  try (intros [[H1 H2] | H]; exfalso;
       first [ apply Ht in H1; discriminate | apply Hm in H2; discriminate
             | apply H, Hc; reflexivity ]);
  try (intros H1 H2 H3; first [reflexivity | exfalso; apply Hc in H3; discriminate
                              | exfalso; apply Ht in H1; discriminate
                              | exfalso; apply H2, Hm; reflexivity]);
  try (intros _; eauto).
Qed.

Lemma row_rejected_iff_witness :
  1 <= 1 /\
  [[""; "angola"; "Para-na-ue"]] !! (1 - 1) = Some [""; "angola"; "Para-na-ue"] /\
  toSong ["title"; "category"; "mnemonic"] [""; "angola"; "Para-na-ue"] (1 - 1)
  = inr (rowObject ["title"; "category"; "mnemonic"] [""; "angola"; "Para-na-ue"]).
Proof.
  split; [lia|]. split; [reflexivity|].
  apply (row_rejected_iff ["title"; "category"; "mnemonic"]
           [[""; "angola"; "Para-na-ue"]] 1
           [""; "angola"; "Para-na-ue"] (le_n 1) eq_refl).
  - reflexivity.
  - vm_compute. discriminate.
  - exists "angola". split; [reflexivity | left; reflexivity].
Defined.

(** C6. When the parsed file has fewer than two rows, or the lowercased
    and trimmed header cells lack title or category, the import ends
    with the matching format message alone: no data row is mapped,
    nothing is handed to onImport. *)
Theorem format_error_blocks_import (text : string) :
  length (parseCSV text) < 2 \/
  "title" ∉ normalise (List.hd [] (parseCSV text)) \/
  "category" ∉ normalise (List.hd [] (parseCSV text)) ->
  handleFileChange text
  = [SetError (if Nat.ltb (length (parseCSV text)) 2
               then TooFewRows else MissingColumns)] /\
  (forall songs, OnImport songs ∉ handleFileChange text).
Proof.
  intros H.
  assert (E : handleFileChange text
    = [SetError (if Nat.ltb (length (parseCSV text)) 2
                 then TooFewRows else MissingColumns)]).
  { unfold handleFileChange, importSongs.
    destruct (Nat.ltb (length (parseCSV text)) 2) eqn:Elen; [reflexivity|].
    apply Nat.ltb_ge in Elen.
    destruct (parseCSV text) as [|row0 slice1]; [simpl in Elen; lia|].
    fold (normalise row0). cbn [List.hd] in H.
    destruct H as [H | [H | H]]; [simpl in *; lia | |].
    - rewrite (bool_decide_eq_false_2 _ H). reflexivity.
    - rewrite (bool_decide_eq_false_2 _ H), orb_true_r. reflexivity. }
  split; [exact E|].
  intros songs Hin. rewrite E in Hin.
  apply list_elem_of_singleton in Hin. discriminate.
Qed.

Lemma format_error_blocks_import_witness :
  (length (parseCSV "title,category") < 2 \/
   "title" ∉ normalise (List.hd [] (parseCSV "title,category")) \/
   "category" ∉ normalise (List.hd [] (parseCSV "title,category"))) /\
  handleFileChange "title,category" = [SetError TooFewRows].
Proof.
  assert (H : length (parseCSV "title,category") < 2) by (vm_compute; lia).
  split; [left; exact H|].
  exact (proj1 (format_error_blocks_import "title,category" (or_introl H))).
Defined.

(** C3. When some data row fails validation, nothing is handed to
    onImport, the rows before it included; and when the header passes,
    the import ends with the message of the first failing data row. *)
Theorem invalid_row_aborts_import
    (text : string) (row0 : list string) (dataRows : list (list string))
    (i : nat) (values : list string) (e : error) :
  parseCSV text = row0 :: dataRows ->
  dataRows !! i = Some values ->
  toSong (normalise row0) values i = inl e ->
  (forall songs, OnImport songs ∉ handleFileChange text) /\
  ("title" ∈ normalise row0 -> "category" ∈ normalise row0 ->
   exists i0 v0 e0,
     i0 <= i /\ dataRows !! i0 = Some v0 /\
     toSong (normalise row0) v0 i0 = inl e0 /\
     (forall j v, j < i0 -> dataRows !! j = Some v ->
        exists song, toSong (normalise row0) v j = inr song) /\
     handleFileChange text = [SetError e0]).
Proof.
  intros Hrows Hi He.
  destruct (mapRows_stops (normalise row0) dataRows 0 i values e Hi He)
    as (i0 & v0 & e0 & Hle & Hi0 & He0 & Hbefore & Hmap).
  assert (Hlen : Nat.ltb (length (row0 :: dataRows)) 2 = false).
  { apply Nat.ltb_ge. apply lookup_lt_Some in Hi. simpl. lia. }
  assert (Hev : exists e', handleFileChange text = [SetError e']).
  { unfold handleFileChange, importSongs. rewrite Hrows, Hlen.
    fold (normalise row0).
    destruct (negb (bool_decide ("title" ∈ normalise row0))
              || negb (bool_decide ("category" ∈ normalise row0))); [eauto|].
    rewrite Hmap. eauto. }
  split.
  - intros songs Hin. destruct Hev as [e' Hev]. rewrite Hev in Hin.
    apply list_elem_of_singleton in Hin. discriminate.
  - intros Ht Hc. exists i0, v0, e0. repeat split; try assumption.
    unfold handleFileChange, importSongs. rewrite Hrows, Hlen.
    fold (normalise row0).
    rewrite (bool_decide_eq_true_2 _ Ht), (bool_decide_eq_true_2 _ Hc).
    cbn [negb orb]. now rewrite Hmap.
Qed.

Lemma invalid_row_aborts_import_witness :
  let text :=
    "title,category,mnemonic" +:+ String LF ("A,angola," +:+ String LF "B,foo,x") in
  parseCSV text
  = ["title"; "category"; "mnemonic"] :: [["A"; "angola"; ""]; ["B"; "foo"; "x"]] /\
  [["A"; "angola"; ""]; ["B"; "foo"; "x"]] !! 1 = Some ["B"; "foo"; "x"] /\
  toSong (normalise ["title"; "category"; "mnemonic"]) ["B"; "foo"; "x"] 1
  = inl (InvalidCategory 3 (Some "foo")) /\
  (forall songs, OnImport songs ∉ handleFileChange text).
Proof.
  intros text.
  assert (H1 : parseCSV text
    = ["title"; "category"; "mnemonic"] :: [["A"; "angola"; ""]; ["B"; "foo"; "x"]])
    by reflexivity.
  assert (H2 : [["A"; "angola"; ""]; ["B"; "foo"; "x"]] !! 1 = Some ["B"; "foo"; "x"])
    by reflexivity.
  assert (H3 : toSong (normalise ["title"; "category"; "mnemonic"]) ["B"; "foo"; "x"] 1
    = inl (InvalidCategory 3 (Some "foo"))) by reflexivity.
  split; [exact H1|]. split; [exact H2|]. split; [exact H3|].
  exact (proj1 (invalid_row_aborts_import text _ _ 1 _ _ H1 H2 H3)).
Defined.

(** C1 (as amended). Export then import gives every song back on title,
    category, mnemonic and lyrics (a missing optional field reading as
    the empty string), for every non-empty list of songs each of which
    has a title or a mnemonic and whose title, mnemonic and lyrics do not
    start or end with a double quote, hold no two double quotes in a row
    and hold no carriage return directly followed by a line feed; commas,
    single double quotes inside a value and line breaks are kept. *)
Theorem export_import_round_trip (songs : list Song) :
  songs <> [] ->
  Forall (fun song => importable song = true) songs ->
  exists records,
    handleFileChange (handleExport songs) = [OnImport records; OnClose] /\
    Forall2 sameFour songs records.
Proof.
  intros Hne Hall.
  exists (map (fun song => rowObject exportHeaders (parsedCells song)) songs).
  split.
  - unfold handleFileChange, importSongs.
    rewrite parseCSV_handleExport.
    destruct songs as [|song rest]; [now destruct Hne|].
    change (Nat.ltb (length (headerCells :: map parsedCells (song :: rest))) 2)
      with false.
    cbv iota. fold (normalise headerCells). rewrite normalise_headerCells.
    change (negb (bool_decide ("title" ∈ exportHeaders))
            || negb (bool_decide ("category" ∈ exportHeaders))) with false.
    cbv iota. now rewrite mapRows_export.
  - clear Hne. induction Hall as [|song rest Hsong Hrest IH]; cbn [map].
    + constructor.
    + constructor; [apply sameFour_export, Hsong | exact IH].
Qed.

Lemma export_import_round_trip_witness :
  let song :=
    {| title := "Sim, " +:+ String QUOTE "sim" +:+ String QUOTE " sim";
       category := saoBentoPequeno;
       mnemonic := None;
       lyrics := Some ("Sim sim sim, nao" +:+ String LF "Sim sim sim");
       mediaLink := None |} in
  [song] <> [] /\
  Forall (fun song => importable song = true) [song] /\
  exists records,
    handleFileChange (handleExport [song]) = [OnImport records; OnClose] /\
    Forall2 sameFour [song] records.
Proof.
  intros song.
  assert (H1 : [song] <> []) by discriminate.
  assert (H2 : Forall (fun song => importable song = true) [song])
    by (repeat constructor).
  split; [exact H1|]. split; [exact H2|].
  exact (export_import_round_trip [song] H1 H2).
Defined.

(** C1, the claim as stated fails: a title written with a double quote
    at both ends comes back without them. *)
Lemma round_trip_strips_outer_quotes :
  let song :=
    {| title := String QUOTE ("a" +:+ String QUOTE EmptyString);
       category := angola;
       mnemonic := None; lyrics := None; mediaLink := None |} in
  exists record,
    handleFileChange (handleExport [song]) = [OnImport [record]; OnClose] /\
    record !! "title" = Some "a" /\
    record !! "title" <> Some (title song).
Proof.
  intros song. exists (rowObject exportHeaders (parsedCells song)).
  split; [vm_compute; reflexivity|].
  split; [vm_compute; reflexivity|].
  vm_compute. discriminate.
Qed.

(** Two double quotes in a row inside a value come back as one. *)
Example round_trip_collapses_doubled_quotes :
  let song :=
    {| title := "a" +:+ String QUOTE (String QUOTE "b"); category := angola;
       mnemonic := None; lyrics := None; mediaLink := None |} in
  exists record,
    handleFileChange (handleExport [song]) = [OnImport [record]; OnClose] /\
    record !! "title" = Some ("a" +:+ String QUOTE "b").
Proof.
  intros song. exists (rowObject exportHeaders (parsedCells song)).
  repeat split; vm_compute; reflexivity.
Qed.

(** A song without title and mnemonic is exported but not imported. *)
Example round_trip_needs_title_or_mnemonic :
  handleFileChange
    (handleExport
       [ {| title := EmptyString; category := angola;
            mnemonic := None; lyrics := Some "la la"; mediaLink := None |} ])
  = [SetError (TitleOrMnemonicRequired 2)].
Proof. reflexivity. Qed.

(** The header cell mediaLink is lowercased with the others, so the
    record of an imported row holds the link under medialink and has no
    mediaLink property. *)
Example import_mediaLink_key :
  let song :=
    {| title := "a"; category := angola;
       mnemonic := None; lyrics := None; mediaLink := Some "http://x" |} in
  exists record,
    handleFileChange (handleExport [song]) = [OnImport [record]; OnClose] /\
    record !! "medialink" = Some "http://x" /\
    record !! "mediaLink" = None.
Proof.
  intros song. exists (rowObject exportHeaders (parsedCells song)).
  repeat split; vm_compute; reflexivity.
Qed.

Lemma doubleQuotes_flat (v : string) :
  doubleQuotes v
  = string_of_list_ascii (flat_map doubleChar (list_ascii_of_string v)).
Proof.
  induction v as [|c r IH]; [reflexivity|].
  cbn [doubleQuotes list_ascii_of_string flat_map]. unfold doubleChar at 1.
  destruct (Ascii.eqb c QUOTE); cbn [app string_of_list_ascii]; now rewrite IH.
Qed.

(** C4 (as amended). The export is the line
    title,category,mnemonic,lyrics,mediaLink followed, for each song in
    order, by one line feed and the row of the song; a row is its five
    cells in the column order with a comma between them; the title,
    mnemonic, lyrics and mediaLink cells are the value with every double
    quote doubled, between two double quotes, a missing optional field
    giving two double quotes; the category cell is the bare category
    name, without quotes; the export of no song is the header line. *)
Theorem export_layout (songs : list Song) :
  handleExport [] = "title,category,mnemonic,lyrics,mediaLink" /\
  handleExport songs
  = "title,category,mnemonic,lyrics,mediaLink" +:+ songLines songs /\
  (forall song,
     join "," (songCells song)
     = quoted (title song) +:+ "," +:+
       categoryString (category song) +:+ "," +:+
       quoted (orEmpty (mnemonic song)) +:+ "," +:+
       quoted (orEmpty (lyrics song)) +:+ "," +:+
       quoted (orEmpty (mediaLink song))) /\
  (forall v,
     quoted v
     = String QUOTE
         (string_of_list_ascii (flat_map doubleChar (list_ascii_of_string v))
          +:+ String QUOTE EmptyString)) /\
  quoted (orEmpty None) = String QUOTE (String QUOTE EmptyString) /\
  (forall c, hasQuote (categoryString c) = false).
Proof.
  split; [reflexivity|]. split; [apply handleExport_lines|].
  split; [reflexivity|]. split; [|split; [reflexivity | now intros []]].
  intros v. unfold quoted. now rewrite doubleQuotes_flat.
Qed.

(** C4, the claim as stated fails: the category cell is not wrapped in
    double quotes. *)
Lemma category_cell_is_bare :
  let song :=
    {| title := "a"; category := angola;
       mnemonic := None; lyrics := None; mediaLink := None |} in
  nth 1 (songCells song) EmptyString = "angola" /\
  nth 1 (specCells song) EmptyString
  = String QUOTE ("angola" +:+ String QUOTE EmptyString) /\
  handleExport [song]
  <> join (String LF EmptyString)
       [join "," headerCells; join "," (specCells song)].
Proof. vm_compute. repeat split. discriminate. Qed.

(** C7. The text between the quotes of a quoted cell is kept character
    by character, except that a line feed directly after a carriage
    return is dropped: the quoted cell a CR LF b is read as a CR b.  The
    example of the specification is read as one row of two cells. *)
Theorem quoted_cell_loses_line_feed_after_carriage_return :
  (forall v : string,
     parseCSV (quoted v) = if truthy v then [[inQuotesData v]] else []) /\
  parseCSV (quoted (String "a" (String CR (String LF "b"))))
  = [[String "a" (String CR "b")]] /\
  parseCSV ("a," +:+ quoted "b,c" +:+ String LF EmptyString) = [["a"; "b,c"]].
Proof.
  split; [|split; reflexivity].
  intros v. unfold parseCSV.
  rewrite <- (sapp_nil_r (quoted v)).
  rewrite scan_quoted by (reflexivity || discriminate).
  cbn [scan]. unfold flush, init. cbn [currentValue row result length].
  change (EmptyString +:+ inQuotesData v) with (inQuotesData v).
  now destruct v.
Qed.

(** ** Row level security *)

Section Policies.
Import Schema.

Lemma forallb_same {A : Type} (f g : A -> bool) (l : list A) :
  (forall a, f a = g a) -> forallb f l = forallb g l.
Proof.
  intros H. induction l as [|a l IH]; [reflexivity|].
  cbn [forallb]. now rewrite H, IH.
Qed.

(** Every role, identity and command, against the policies of a table. *)
Ltac policy_cases s c :=
  let ro := fresh "ro" in
  let u := fresh "u" in
  destruct s as [ro [u|]]; destruct ro, c; unfold owns, using_ok, check_ok; cbn;
  repeat case_bool_decide; simplify_eq; try reflexivity; try congruence.

Lemma using_ok_songs (c : command) (s : session) (r : songs_row) :
  using_ok songs_policies c s r
  = match c with INSERT => false | _ => owns s (songs_user_id r) end.
Proof. policy_cases s c. Qed.

Lemma check_ok_songs (c : command) (s : session) (r : songs_row) :
  check_ok songs_policies c s r
  = match c with INSERT | UPDATE => owns s (songs_user_id r) | _ => false end.
Proof. policy_cases s c. Qed.

Lemma using_ok_settings (c : command) (s : session) (r : prompter_settings_row) :
  using_ok prompter_settings_policies c s r
  = match c with SELECT | UPDATE => owns s (settings_user_id r) | _ => false end.
Proof. policy_cases s c. Qed.

Lemma check_ok_settings (c : command) (s : session) (r : prompter_settings_row) :
  check_ok prompter_settings_policies c s r
  = match c with INSERT | UPDATE => owns s (settings_user_id r) | _ => false end.
Proof. policy_cases s c. Qed.

(** *** The update loop *)

Section Update.
Context {Row : Type} (policies : list (policy Row)) (cs : constraints Row).
Context (s : session) (where_ : Row -> bool) (set : Row -> Row).

(** The rows the update writes. *)
Let target (r : Row) : bool := using_ok policies UPDATE s r && where_ r.

Lemma update_from_Done (rest : list Row) : forall written visited w t,
  update_from policies cs s where_ set written visited rest = Done w t ->
  w = written ++ map set (List.filter target rest) /\
  t = visited ++ map (fun r => if target r then set r else r) rest /\
  forallb (fun r => negb (target r) || check_ok policies UPDATE s (set r)) rest
  = true.
Proof.
  unfold target.
  induction rest as [|r rest IH]; intros written visited w t H;
    cbn [update_from] in H.
  - injection H as <- <-. cbn. now rewrite !app_nil_r.
  - cbn [List.filter map forallb].
    destruct (using_ok policies UPDATE s r && where_ r) eqn:Et.
    + destruct (check_ok policies UPDATE s (set r)) eqn:Ec;
        cbn [negb] in H; [|discriminate].
      destruct (admits cs (set r) (visited ++ rest)); [|discriminate].
      apply IH in H as (-> & -> & ->). cbn [map app negb orb andb].
      now rewrite <- !app_assoc.
    + apply IH in H as (-> & -> & ->). cbn [negb orb andb].
      now rewrite <- !app_assoc.
Qed.

Lemma update_from_Rls (rest : list Row) : forall written visited,
  update_from policies cs s where_ set written visited rest = RlsViolation ->
  exists r, r ∈ rest /\ target r = true /\
            check_ok policies UPDATE s (set r) = false.
Proof.
  unfold target.
  induction rest as [|r rest IH]; intros written visited H;
    cbn [update_from] in H; [discriminate|].
  destruct (using_ok policies UPDATE s r && where_ r) eqn:Et.
  - destruct (check_ok policies UPDATE s (set r)) eqn:Ec; cbn [negb] in H.
    + destruct (admits cs (set r) (visited ++ rest)); [|discriminate].
      apply IH in H as (r' & Hin & Ht & Hc).
      exists r'. split; [now apply list_elem_of_further | now split].
    + exists r. split; [apply list_elem_of_here | now split].
  - apply IH in H as (r' & Hin & Ht & Hc).
    exists r'. split; [now apply list_elem_of_further | now split].
Qed.

Lemma update_from_checked (rest : list Row) : forall written visited w t,
  update_from policies cs s where_ set written visited rest = Done w t ->
  forallb (fun r => negb (target r) || row_check cs (set r)) rest = true.
Proof.
  unfold target.
  induction rest as [|r rest IH]; intros written visited w t H;
    cbn [update_from] in H; [reflexivity|].
  cbn [forallb].
  destruct (using_ok policies UPDATE s r && where_ r) eqn:Et.
  - destruct (check_ok policies UPDATE s (set r)); cbn [negb] in H;
      [|discriminate].
    destruct (admits cs (set r) (visited ++ rest)) eqn:Ea; [|discriminate].
    unfold admits in Ea. apply andb_true_iff in Ea as [-> _].
    cbn [negb orb andb]. exact (IH _ _ _ _ H).
  - cbn [negb orb andb]. exact (IH _ _ _ _ H).
Qed.

(** A row that takes the key of a row the update does not write stops
    the update, unless an earlier row has stopped it. *)
Lemma update_from_key_taken (rest : list Row) : forall written visited r r' w t,
  r ∈ rest -> target r = true -> target r' = false ->
  r' ∈ visited \/ r' ∈ rest ->
  primary_key cs (set r) = primary_key cs r' ->
  update_from policies cs s where_ set written visited rest <> Done w t.
Proof.
  unfold target.
  induction rest as [|h rest IH]; intros written visited r r' w t Hr Ht Ht' Hr' Hpk;
    [now apply elem_of_nil in Hr|].
  cbn [update_from].
  assert (Hkept : forall h', using_ok policies UPDATE s h && where_ h = true ->
            r' ∈ visited \/ r' ∈ h :: rest ->
            r' ∈ visited ++ [h'] \/ r' ∈ rest).
  { intros h' Eh [Hin | Hin]; [left; apply elem_of_app; now left|].
    apply elem_of_cons in Hin as [-> | Hin]; [congruence | now right]. }
  destruct (using_ok policies UPDATE s h && where_ h) eqn:Eh.
  - destruct (check_ok policies UPDATE s (set h)); cbn [negb]; [|discriminate].
    destruct (admits cs (set h) (visited ++ rest)) eqn:Ea; [|discriminate].
    apply elem_of_cons in Hr as [-> | Hr].
    + exfalso. unfold admits in Ea. apply andb_true_iff in Ea as [_ Ea].
      apply negb_true_iff, bool_decide_eq_false in Ea. apply Ea.
      rewrite Hpk. apply list_elem_of_fmap. exists r'. split; [reflexivity|].
      apply elem_of_app. destruct Hr' as [Hin | Hin]; [now left|].
      apply elem_of_cons in Hin as [-> | Hin]; [congruence | now right].
    + apply (IH _ _ r r'); auto.
  - apply elem_of_cons in Hr as [-> | Hr]; [congruence|].
    apply (IH _ _ r r'); auto.
    destruct Hr' as [Hin | Hin]; [left; apply elem_of_app; now left|].
    apply elem_of_cons in Hin as [-> | Hin]; [|now right].
    left. apply elem_of_app. right. apply list_elem_of_here.
Qed.

(** With keys that differ from row to row, rows whose new values pass
    the WITH CHECK policy and the check constraint and keep their key
    are written one after the other. *)
Lemma update_from_admitted (rest : list Row) : forall written visited,
  (forall r, r ∈ rest -> target r = true ->
     check_ok policies UPDATE s (set r) = true /\
     row_check cs (set r) = true /\
     primary_key cs (set r) = primary_key cs r) ->
  NoDup (map (primary_key cs) (visited ++ rest)) ->
  update_from policies cs s where_ set written visited rest
  = Done (written ++ map set (List.filter target rest))
         (visited ++ map (fun r => if target r then set r else r) rest).
Proof.
  unfold target.
  induction rest as [|r rest IH]; intros written visited Hok Hkeys;
    cbn [update_from List.filter map].
  - now rewrite !app_nil_r.
  - destruct (using_ok policies UPDATE s r && where_ r) eqn:Et.
    + destruct (Hok r (list_elem_of_here _ _) Et) as (Hc & Hrow & Hpk).
      rewrite Hc. cbn [negb]. unfold admits. rewrite Hrow, Hpk.
      assert (Hfresh : primary_key cs r ∉ map (primary_key cs) (visited ++ rest)).
      { rewrite map_app in Hkeys |- *. cbn [map] in Hkeys.
        apply NoDup_app in Hkeys as (_ & Hdisj & Hrest).
        apply NoDup_cons in Hrest as [Hnot _].
        intros Hin. apply elem_of_app in Hin as [Hin | Hin]; [|contradiction].
        apply (Hdisj _ Hin). apply list_elem_of_here. }
      rewrite (bool_decide_eq_false_2 _ Hfresh). cbn [andb negb].
      rewrite IH.
      * cbn [map app]. now rewrite <- !app_assoc.
      * intros r' Hin. apply Hok. now apply list_elem_of_further.
      * rewrite <- app_assoc. cbn [app].
        rewrite map_app in Hkeys |- *. cbn [map] in Hkeys |- *. now rewrite Hpk.
    + rewrite IH.
      * now rewrite <- !app_assoc.
      * intros r' Hin. apply Hok. now apply list_elem_of_further.
      * now rewrite <- app_assoc.
Qed.

Context (users : list uuid).

(** Such an update, when it also keeps the references of the rows, is
    carried out. *)
Lemma update_admitted (table : list Row) :
  (forall r, r ∈ table -> target r = true ->
     check_ok policies UPDATE s (set r) = true /\
     row_check cs (set r) = true /\
     primary_key cs (set r) = primary_key cs r /\
     references_user cs (set r) = references_user cs r) ->
  NoDup (map (primary_key cs) table) ->
  update policies users cs s where_ set table
  = Done (map set (List.filter target table))
         (map (fun r => if target r then set r else r) table).
Proof.
  intros Hok Hkeys. unfold update.
  rewrite (update_from_admitted table [] []);
    [| intros r Hin Ht; destruct (Hok r Hin Ht) as (? & ? & ? & ?); auto
     | exact Hkeys].
  cbn [app].
  assert (Hrefs : forallb (fun r => negb (using_ok policies UPDATE s r && where_ r)
                                    || references_ok users cs (Some r) (set r))
                    table = true).
  { apply forallb_forall. intros r Hin. apply list_elem_of_In in Hin.
    destruct (using_ok policies UPDATE s r && where_ r) eqn:Et; [|reflexivity].
    destruct (Hok r Hin Et) as (_ & _ & _ & Href).
    unfold references_ok. now rewrite (bool_decide_eq_true_2 _ Href). }
  now rewrite Hrefs.
Qed.

Lemma update_Done_from (table w t : list Row) :
  update policies users cs s where_ set table = Done w t ->
  update_from policies cs s where_ set [] [] table = Done w t.
Proof.
  unfold update.
  destruct (update_from policies cs s where_ set [] [] table) as [w' t'| |];
    [|discriminate..].
  now destruct (forallb _ table).
Qed.

(** An update that is carried out has written the rows it targets, each
    to a row its WITH CHECK policy accepts, and left the others. *)
Lemma update_Done (table w t : list Row) :
  update policies users cs s where_ set table = Done w t ->
  w = map set (List.filter target table) /\
  t = map (fun r => if target r then set r else r) table /\
  forallb (fun r => negb (target r) || check_ok policies UPDATE s (set r)) table
  = true.
Proof.
  unfold update.
  destruct (update_from policies cs s where_ set [] [] table) as [w' t'| |] eqn:E;
    [|discriminate..].
  destruct (forallb _ table); [|discriminate].
  intros [= <- <-]. exact (update_from_Done table [] [] w' t' E).
Qed.

(** The row level security error of an update comes from a targeted row
    whose new value fails the WITH CHECK policy. *)
Lemma update_Rls (table : list Row) :
  update policies users cs s where_ set table = RlsViolation ->
  exists r, r ∈ table /\ target r = true /\
            check_ok policies UPDATE s (set r) = false.
Proof.
  unfold update.
  destruct (update_from policies cs s where_ set [] [] table) as [w' t'| |] eqn:E.
  - destruct (forallb _ table); discriminate.
  - intros _. exact (update_from_Rls table [] [] E).
  - discriminate.
Qed.

(** An update with a targeted row whose new value fails the WITH CHECK
    policy or the check constraint is not carried out. *)
Lemma update_refused (table : list Row) :
  (exists r, r ∈ table /\ target r = true /\
             (check_ok policies UPDATE s (set r) = false \/
              row_check cs (set r) = false)) ->
  refused (update policies users cs s where_ set table).
Proof.
  intros (r & Hin & Ht & Hc). unfold refused.
  destruct (update policies users cs s where_ set table) as [w t| |] eqn:E;
    [|now left|now right].
  exfalso. apply list_elem_of_In in Hin. destruct Hc as [Hc | Hc].
  - apply update_Done in E as (_ & _ & Hall).
    rewrite forallb_forall in Hall. specialize (Hall r Hin).
    rewrite Ht, Hc in Hall. discriminate.
  - apply update_Done_from, update_from_checked in E.
    rewrite forallb_forall in E. specialize (E r Hin).
    rewrite Ht, Hc in E. discriminate.
Qed.

(** An update with a targeted row whose new value has the key of a row
    that is not targeted is not carried out. *)
Lemma update_refused_key (table : list Row) :
  (exists r r', r ∈ table /\ r' ∈ table /\ target r = true /\
                target r' = false /\
                primary_key cs (set r) = primary_key cs r') ->
  refused (update policies users cs s where_ set table).
Proof.
  intros (r & r' & Hin & Hin' & Ht & Ht' & Hpk). unfold refused.
  destruct (update policies users cs s where_ set table) as [w t| |] eqn:E;
    [|now left|now right].
  exfalso. apply update_Done_from in E.
  apply (update_from_key_taken table [] [] r r' w t); auto.
Qed.

(** The table an update leaves, carried out or refused. *)
Lemma after_update (table : list Row) :
  after (update policies users cs s where_ set table) table = table \/
  after (update policies users cs s where_ set table) table
  = map (fun r => if target r then set r else r) table /\
  forallb (fun r => negb (target r) || check_ok policies UPDATE s (set r)) table
  = true.
Proof.
  destruct (update policies users cs s where_ set table) as [w t| |] eqn:E;
    [|now left..].
  right. now apply update_Done in E as (_ & -> & ->).
Qed.

End Update.

(** A table whose SELECT and UPDATE policies show, and whose INSERT and
    UPDATE policies accept, the rows of the session's identity. *)
Lemma own_rows_only_intro {Row : Type} (policies : list (policy Row))
    (cs : constraints Row) (user_id : Row -> uuid) (s : session) :
  (forall r, using_ok policies SELECT s r = owns s (user_id r)) ->
  (forall r, using_ok policies UPDATE s r = owns s (user_id r)) ->
  (forall r, check_ok policies INSERT s r = owns s (user_id r)) ->
  (forall r, check_ok policies UPDATE s r = owns s (user_id r)) ->
  own_rows_only policies cs user_id s.
Proof.
  intros HS HU HI HC. unfold own_rows_only. split; [|split].
  - intros where_ table. unfold select. f_equal.
    apply filter_ext. intros r. now rewrite HS.
  - intros users new table. unfold insert. now rewrite HI.
  - intros users where_ set table. split; [|split; [|split; [|split]]].
    + intros written table' E.
      apply update_Done in E as (-> & -> & Hall).
      rewrite (filter_ext _ (fun r => owns s (user_id r) && where_ r))
        by (intros r; now rewrite HU).
      rewrite (map_ext (fun r => if using_ok policies UPDATE s r && where_ r
                                 then set r else r)
                       (fun r => if owns s (user_id r) && where_ r
                                 then set r else r))
        by (intros r; now rewrite HU).
      split; [reflexivity|]. split; [reflexivity|].
      rewrite forallb_forall in Hall.
      apply Forall_forall. intros r' Hin.
      apply list_elem_of_In, in_map_iff in Hin as (r & <- & Hin).
      apply filter_In in Hin as [Hin Ht].
      specialize (Hall r Hin). rewrite HU, Ht, HC in Hall. exact Hall.
    + intros Hok Hkeys.
      rewrite (update_admitted policies cs s where_ set users table).
      * f_equal.
        -- f_equal. apply filter_ext. intros r. now rewrite HU.
        -- apply map_ext. intros r. now rewrite HU.
      * intros r Hin Ht. rewrite HU in Ht. rewrite HC.
        exact (Hok r Hin Ht).
      * exact Hkeys.
    + intros (r & Hin & Ht & Hc). apply update_refused.
      exists r. now rewrite HU, HC.
    + intros (r & r' & Hin & Hin' & Ht & Ht' & Hpk). apply update_refused_key.
      exists r, r'. now rewrite !HU.
    + intros E. apply update_Rls in E as (r & Hin & Ht & Hc).
      exists r. now rewrite HU in Ht; rewrite HC in Hc.
Qed.

End Policies.

(** C2 (as amended). On both tables a session reaches the rows of its
    own authenticated identity only.  A select returns the own rows that
    match and leaves the rows of other owners out without an error; an
    update or a delete skips the rows of other owners without an error.
    An insert is refused with a row level security error exactly when
    the new row carries another identity than the session's; a row of
    the own identity is stored when the check constraint, the primary
    key and the reference to the users admit it, and refused with their
    error otherwise.  An update that is carried out has written the own
    rows that match, each to a row of the own identity, and no other
    row; it is carried out when the stored keys differ from row to row
    and each new row has the own identity, passes the check constraint
    and keeps the key and the owner of the row it replaces; it is
    refused when it would give a row another identity, write a row that
    fails the check constraint, or give a row the key of a row it leaves
    alone, and it raises the row level security error only for a row
    that would get another identity.  No delete removes a
    settings row.  A session that is not authenticated,
    or has no identity, owns no row. *)
Theorem row_level_security (s : Schema.session) :
  own_rows_only Schema.songs_policies Schema.songs_constraints
    Schema.songs_user_id s /\
  own_rows_only Schema.prompter_settings_policies
    Schema.prompter_settings_constraints Schema.settings_user_id s /\
  (forall where_ table,
     Schema.delete Schema.songs_policies s where_ table
     = Schema.Done
         (List.filter (fun r => owns s (Schema.songs_user_id r) && where_ r) table)
         (List.filter (fun r => negb (owns s (Schema.songs_user_id r) && where_ r)) table)) /\
  (forall where_ table,
     Schema.delete Schema.prompter_settings_policies s where_ table
     = Schema.Done [] table) /\
  (forall owner,
     owns s owner = true <->
     Schema.session_role s = Schema.authenticated /\
     Schema.auth_uid s = Some owner).
Proof.
  split; [|split; [|split; [|split]]].
  - apply own_rows_only_intro; intros r;
      now rewrite ?using_ok_songs, ?check_ok_songs.
  - apply own_rows_only_intro; intros r;
      now rewrite ?using_ok_settings, ?check_ok_settings.
  - intros where_ table. unfold Schema.delete. f_equal.
    + apply filter_ext. intros r. now rewrite using_ok_songs.
    + apply filter_ext. intros r. now rewrite using_ok_songs.
  - intros where_ table. unfold Schema.delete. f_equal.
    + induction table as [|r t IH]; [reflexivity|].
      cbn [List.filter]. now rewrite using_ok_settings, IH.
    + induction table as [|r t IH]; [reflexivity|].
      cbn [List.filter]. rewrite using_ok_settings. cbn [andb negb]. now rewrite IH.
  - intros owner. unfold owns.
    rewrite andb_true_iff, !bool_decide_eq_true. reflexivity.
Qed.

(** C2, the claim as stated fails: the song of identity 1 is read,
    updated and deleted by a session of identity 2 without a denial; the
    statements complete, return no row and leave the table as it was. *)
Lemma foreign_rows_are_filtered_not_denied :
  let song :=
    {| Schema.id := 7%positive; Schema.songs_user_id := 1%positive;
       Schema.title := Schema.Text "Paranaue" eq_refl;
       Schema.category := Schema.Text "angola" eq_refl;
       Schema.mnemonic := None; Schema.lyrics := None;
       Schema.media_link := None |} in
  let other :=
    {| Schema.session_role := Schema.authenticated;
       Schema.auth_uid := Some 2%positive |} in
  let retitled :=
    {| Schema.id := 7%positive; Schema.songs_user_id := 1%positive;
       Schema.title := Schema.Text "x" eq_refl;
       Schema.category := Schema.Text "angola" eq_refl;
       Schema.mnemonic := None; Schema.lyrics := None;
       Schema.media_link := None |} in
  let users := [1%positive; 2%positive] in
  Schema.select Schema.songs_policies other (fun _ => true) [song]
  = Schema.Done [] [song] /\
  Schema.update Schema.songs_policies users Schema.songs_constraints other
    (fun _ => true) (fun _ => retitled) [song]
  = Schema.Done [] [song] /\
  Schema.delete Schema.songs_policies other (fun _ => true) [song]
  = Schema.Done [] [song] /\
  Schema.select Schema.songs_policies other (fun _ => true) [song]
  <> Schema.RlsViolation.
Proof. vm_compute. repeat split. discriminate. Qed.

(** * Further properties of the code *)

(** ** parseCSV on any text *)

Lemma scan_invariant (I : state -> Prop) (p : ascii -> bool) :
  (forall st c next, p c = true -> I st -> I (fst (loop_body st c next))) ->
  forall n text st,
    String.length text <= n -> all_chars p text = true -> I st ->
    I (scan st text).
Proof.
  intros Hstep. induction n as [|n IH]; intros text st Hlen Hp HI.
  - destruct text; [exact HI | cbn in Hlen; lia].
  - destruct text as [|c rest]; [exact HI|].
    cbn [String.length] in Hlen. cbn [all_chars] in Hp.
    apply andb_true_iff in Hp as [Hc Hrest].
    rewrite scan_cons.
    pose proof (Hstep st c (first_char rest) Hc HI) as HI'.
    destruct (loop_body st c (first_char rest)) as [st' twice].
    cbn [fst] in HI'.
    destruct twice, rest as [|d rest']; try (apply IH; (assumption || lia)).
    cbn [String.length all_chars] in *.
    apply andb_true_iff in Hrest as [_ Hrest'].
    apply IH; (assumption || lia).
Qed.

Lemma all_chars_true (text : string) : all_chars (fun _ => true) text = true.
Proof. induction text as [|c r IH]; [reflexivity | exact IH]. Qed.

Lemma all_chars_app (p : ascii -> bool) (s t : string) :
  all_chars p (s +:+ t) = all_chars p s && all_chars p t.
Proof.
  induction s as [|c r IH]; [reflexivity|].
  rewrite sapp_cons. cbn [all_chars]. now rewrite IH, andb_assoc.
Qed.

Lemma hasQuote_all_chars (text : string) :
  hasQuote text = false ->
  all_chars (fun c => negb (Ascii.eqb c QUOTE)) text = true.
Proof.
  induction text as [|c r IH]; [reflexivity|].
  cbn [hasQuote all_chars]. intros H.
  apply orb_false_iff in H as [-> H]. now apply IH.
Qed.

(** The rows collected so far after a turn of the loop are those before
    it, with or without the pending row. *)
Lemma loop_body_result (st : state) (c : ascii) (next : option ascii) :
  result (fst (loop_body st c next)) = result st \/
  result (fst (loop_body st c next)) = flush st.
Proof.
  unfold loop_body.
  repeat match goal with
         | |- context [if ?b then _ else _] => destruct b
         end; cbn [fst result]; auto.
Qed.

Lemma flush_content (st : state) :
  Forall (fun row => row <> [] /\ row <> [EmptyString]) (result st) ->
  Forall (fun row => row <> [] /\ row <> [EmptyString]) (flush st).
Proof.
  intros H. unfold flush.
  destruct (truthy (currentValue st) || Nat.ltb 0 (length (row st))) eqn:E;
    [|exact H].
  apply Forall_app. split; [exact H|]. apply Forall_singleton.
  destruct st as [res rw q cv]. cbn [row currentValue] in *.
  destruct rw as [|cell rw]; [|split; [discriminate | now destruct rw]].
  destruct cv; [discriminate|]. split; discriminate.
Qed.

(** X1. No row of a parsed text is empty, and none is a single empty
    cell: blank lines give no row. *)
Theorem parsed_rows_have_content (text : string) :
  Forall (fun row => row <> [] /\ row <> [EmptyString]) (parseCSV text).
Proof.
  unfold parseCSV. apply flush_content.
  apply (scan_invariant
           (fun st => Forall (fun row => row <> [] /\ row <> [EmptyString]) (result st))
           (fun _ => true)) with (n := String.length text);
    [ | lia | apply all_chars_true | constructor ].
  intros st c next _ H.
  destruct (loop_body_result st c next) as [-> | ->];
    [exact H | apply flush_content, H].
Qed.

Lemma flush_unbroken (st : state) :
  Forall (Forall unbroken) (result st) ->
  Forall unbroken (row st) -> unbroken (currentValue st) ->
  Forall (Forall unbroken) (flush st).
Proof.
  intros Hres Hrow Hcv. unfold flush.
  destruct (truthy (currentValue st) || Nat.ltb 0 (length (row st)));
    [|exact Hres].
  apply Forall_app. split; [exact Hres|]. apply Forall_singleton.
  apply Forall_app. split; [exact Hrow | now apply Forall_singleton].
Qed.

(** X2. In a text without double quote no cell holds a comma, a carriage
    return or a line feed. *)
Theorem unquoted_cells_hold_no_separator (text : string) :
  hasQuote text = false ->
  Forall (Forall unbroken) (parseCSV text).
Proof.
  intros Hq. unfold parseCSV.
  assert (H : inQuotes (scan init text) = false /\
              Forall (Forall unbroken) (result (scan init text)) /\
              Forall unbroken (row (scan init text)) /\
              unbroken (currentValue (scan init text))).
  { apply (scan_invariant
             (fun st => inQuotes st = false /\
                        Forall (Forall unbroken) (result st) /\
                        Forall unbroken (row st) /\
                        unbroken (currentValue st))
             (fun c => negb (Ascii.eqb c QUOTE))) with (n := String.length text);
      [ | lia | now apply hasQuote_all_chars | repeat split; constructor ].
    intros [res rw q cv] c next Hc (Hin & Hres & Hrow & Hcv).
    cbn [inQuotes result row currentValue] in *. subst q.
    apply negb_true_iff in Hc. unfold loop_body. rewrite Hc.
    cbn [inQuotes result row currentValue negb andb].
    destruct (Ascii.eqb c CR || Ascii.eqb c LF) eqn:Enl.
    - cbn [fst inQuotes result row currentValue].
      repeat split; try constructor. now apply flush_unbroken.
    - rewrite andb_true_r. destruct (Ascii.eqb c COMMA) eqn:Ecomma;
        cbn [fst inQuotes result row currentValue].
      + repeat split; try assumption; try reflexivity.
        apply Forall_app. split; [exact Hrow | now apply Forall_singleton].
      + repeat split; try assumption.
        unfold unbroken, add_char. rewrite all_chars_app, Hcv.
        cbn [all_chars andb]. unfold separator.
        apply orb_false_iff in Enl as [-> ->]. now rewrite Ecomma. }
  destruct H as (_ & Hres & Hrow & Hcv). now apply flush_unbroken.
Qed.

Lemma unquoted_cells_hold_no_separator_witness :
  hasQuote ("a,b" +:+ String CR (String LF "c")) = false /\
  Forall (Forall unbroken) (parseCSV ("a,b" +:+ String CR (String LF "c"))).
Proof.
  assert (H : hasQuote ("a,b" +:+ String CR (String LF "c")) = false)
    by reflexivity.
  split; [exact H|].
  exact (unquoted_cells_hold_no_separator _ H).
Defined.

(** Only a carriage return and a double quote look at the next
    character. *)
Lemma loop_body_no_lookahead (st : state) (c : ascii) (next next' : option ascii) :
  Ascii.eqb c CR = false -> Ascii.eqb c QUOTE = false ->
  loop_body st c next = loop_body st c next'.
Proof. intros Hcr Hq. unfold loop_body. now rewrite Hcr, Hq. Qed.

(** A carriage return looks for a line feed, a double quote for a double
    quote: before any other character the turn is the same as at the
    end of the text. *)
Lemma loop_body_next_other (st : state) (c d : ascii) :
  Ascii.eqb d LF = false -> Ascii.eqb d QUOTE = false ->
  loop_body st c (Some d) = loop_body st c None.
Proof.
  intros Hlf Hq. unfold loop_body. cbn [next_is]. now rewrite Hlf, Hq.
Qed.

Lemma loop_body_at_end (st : state) (c : ascii) :
  snd (loop_body st c None) = false.
Proof.
  unfold loop_body. cbn [next_is]. rewrite !andb_false_r.
  repeat match goal with
         | |- context [if ?b then _ else _] => destruct b
         end; reflexivity.
Qed.

Lemma loop_body_unquoted (st : state) (c : ascii) (next : option ascii) :
  inQuotes st = false -> Ascii.eqb c QUOTE = false ->
  inQuotes (fst (loop_body st c next)) = false.
Proof.
  intros Hin Hq. unfold loop_body. rewrite Hin, Hq.
  repeat match goal with
         | |- context [if ?b then _ else _] => destruct b
         end; reflexivity.
Qed.

Lemma scan_one (st : state) (c : ascii) :
  scan st (String c EmptyString) = fst (loop_body st c None).
Proof.
  rewrite scan_cons. cbn [first_char].
  now destruct (loop_body st c None) as [st' []].
Qed.

(** Scanning a text and then a suffix is scanning the two in a row when
    the suffix starts with neither a line feed nor a double quote. *)
Lemma scan_app (n : nat) : forall (text : string) (st : state) (d : ascii) (rest : string),
  String.length text <= n ->
  Ascii.eqb d LF = false -> Ascii.eqb d QUOTE = false ->
  scan st (text +:+ String d rest) = scan (scan st text) (String d rest).
Proof.
  induction n as [|n IH]; intros text st d rest Hlen Hlf Hq.
  - destruct text; [reflexivity | cbn in Hlen; lia].
  - destruct text as [|c [|c' text']]; [reflexivity | |].
    + rewrite sapp_cons. change (EmptyString +:+ String d rest) with (String d rest).
      rewrite scan_cons, scan_one. cbn [first_char].
      rewrite (loop_body_next_other _ _ _ Hlf Hq).
      pose proof (loop_body_at_end st c) as Hend.
      destruct (loop_body st c None) as [st' twice]. cbn [snd fst] in *.
      now subst twice.
    + rewrite !sapp_cons, (scan_cons st c (String c' text')), (scan_cons st c).
      cbn [first_char String.length] in *.
      destruct (loop_body st c (Some c')) as [st' []].
      * apply IH; (assumption || lia).
      * rewrite <- sapp_cons. apply IH; (assumption || cbn; lia).
Qed.

Lemma scan_then_LF (n : nat) : forall (text : string) (st : state),
  String.length text <= n ->
  scan st (text +:+ String LF EmptyString) = scan st text \/
  scan st (text +:+ String LF EmptyString) = fst (loop_body (scan st text) LF None).
Proof.
  induction n as [|n IH]; intros text st Hlen.
  - destruct text; [|cbn in Hlen; lia]. right. apply scan_one.
  - destruct text as [|c [|c' text']]; [right; apply scan_one | |].
    + rewrite sapp_cons.
      change (EmptyString +:+ String LF EmptyString) with (String LF EmptyString).
      rewrite scan_cons, scan_one. cbn [first_char].
      destruct (Ascii.eqb_spec c CR) as [->|Hncr].
      * left. unfold loop_body. now destruct (inQuotes st).
      * right. apply Ascii.eqb_neq in Hncr.
        assert (E : loop_body st c (Some LF) = loop_body st c None).
        { unfold loop_body. cbn [next_is]. rewrite Hncr.
          now rewrite !andb_false_r. }
        rewrite E. pose proof (loop_body_at_end st c) as Hend.
        destruct (loop_body st c None) as [st' twice]. cbn [snd fst] in *.
        subst twice. apply scan_one.
    + rewrite !sapp_cons, (scan_cons st c (String c' text')), (scan_cons st c).
      cbn [first_char String.length] in *.
      destruct (loop_body st c (Some c')) as [st' []].
      * apply IH; lia.
      * rewrite <- sapp_cons. apply IH; cbn; lia.
Qed.

Lemma flush_after_terminator (st : state) :
  flush (State (flush st) [] false EmptyString) = flush st.
Proof. reflexivity. Qed.

(** X3. A line terminator (line feed, carriage return, or the two in a
    row) after a text that ends outside quotes adds no row and changes
    none. *)
Theorem trailing_line_terminator_ignored (text : string) :
  inQuotes (scan init text) = false ->
  parseCSV (text +:+ String LF EmptyString) = parseCSV text /\
  parseCSV (text +:+ String CR EmptyString) = parseCSV text /\
  parseCSV (text +:+ String CR (String LF EmptyString)) = parseCSV text.
Proof.
  intros Hin. unfold parseCSV.
  assert (Hnl : forall c, Ascii.eqb c CR || Ascii.eqb c LF = true ->
                fst (loop_body (scan init text) c None)
                = State (flush (scan init text)) [] false EmptyString).
  { intros c Hc. unfold loop_body. now rewrite Hc, Hin. }
  split; [|split].
  - destruct (scan_then_LF (String.length text) text init (le_n _)) as [-> | ->];
      [reflexivity|].
    now rewrite (Hnl LF eq_refl).
  - rewrite (scan_app (String.length text)) by (reflexivity || lia).
    rewrite scan_one. now rewrite (Hnl CR eq_refl).
  - rewrite (scan_app (String.length text)) by (reflexivity || lia).
    rewrite scan_cons. cbn [first_char].
    unfold loop_body at 1. rewrite Hin. reflexivity.
Qed.

Lemma trailing_line_terminator_ignored_witness :
  inQuotes (scan init ("a," +:+ quoted "b,c")) = false /\
  parseCSV (("a," +:+ quoted "b,c") +:+ String LF EmptyString)
  = parseCSV ("a," +:+ quoted "b,c").
Proof.
  assert (H : inQuotes (scan init ("a," +:+ quoted "b,c")) = false)
    by reflexivity.
  split; [exact H|].
  exact (proj1 (trailing_line_terminator_ignored _ H)).
Defined.

Lemma unixLines_first_char (rest : string) (c : ascii) :
  Ascii.eqb c CR = false -> Ascii.eqb c QUOTE = false ->
  forall st, loop_body st c (first_char (unixLines rest))
             = loop_body st c (first_char rest).
Proof. intros Hcr Hq st. now apply loop_body_no_lookahead. Qed.

Lemma scan_CR (st : state) (rest : string) :
  inQuotes st = false ->
  scan st (String CR rest)
  = scan (State (flush st) [] false EmptyString)
      match rest with
      | String d rest' => if Ascii.eqb d LF then rest' else rest
      | EmptyString => rest
      end.
Proof.
  destruct st as [res rw q cv]. cbn [inQuotes]. intros ->.
  rewrite scan_cons. destruct rest as [|d rest']; [reflexivity|].
  unfold loop_body. cbn [first_char next_is inQuotes orb andb].
  change (Ascii.eqb CR CR) with true. cbn [orb andb].
  now destruct (Ascii.eqb d LF).
Qed.

Lemma scan_unixLines (n : nat) : forall (text : string) (st : state),
  String.length text <= n ->
  hasQuote text = false -> inQuotes st = false ->
  scan st (unixLines text) = scan st text.
Proof.
  induction n as [|n IH]; intros text st Hlen Hq Hin.
  - destruct text; [reflexivity | cbn in Hlen; lia].
  - destruct text as [|c rest]; [reflexivity|].
    cbn [String.length hasQuote] in *.
    apply orb_false_iff in Hq as [Hc Hrest].
    change (unixLines (String c rest))
      with (String (if Ascii.eqb c CR then LF else c) (unixLines rest)).
    destruct (Ascii.eqb_spec c CR) as [->|Hncr].
    + rewrite scan_LF, scan_CR by exact Hin.
      destruct rest as [|d rest']; [reflexivity|].
      cbn [String.length hasQuote] in *.
      destruct (Ascii.eqb_spec d LF) as [->|Hdlf].
      * apply orb_false_iff in Hrest as [_ Hrest'].
        change (unixLines (String LF rest')) with (String LF (unixLines rest')).
        rewrite scan_LF by reflexivity. rewrite flush_after_terminator.
        apply IH; (lia || assumption || reflexivity).
      * apply IH; (cbn; lia) || assumption || reflexivity.
    + apply Ascii.eqb_neq in Hncr.
      rewrite !scan_cons, (unixLines_first_char _ _ Hncr Hc).
      pose proof (loop_body_unquoted st c (first_char rest) Hin Hc) as Hin'.
      pose proof (loop_body_no_lookahead st c (first_char rest) None Hncr Hc) as E.
      pose proof (loop_body_at_end st c) as Hend. rewrite <- E in Hend.
      destruct (loop_body st c (first_char rest)) as [st' twice].
      cbn [fst snd] in *. subst twice.
      assert (Hgo : scan st' (unixLines rest) = scan st' rest)
        by (apply IH; (lia || assumption)).
      now destruct (unixLines rest), rest.
Qed.

(** X4. Outside quotes the style of the line ends does not matter: a
    text without double quote gives the same rows when each of its
    carriage returns is replaced by a line feed. *)
Theorem line_end_style_is_irrelevant (text : string) :
  hasQuote text = false ->
  parseCSV (unixLines text) = parseCSV text.
Proof.
  intros Hq. unfold parseCSV.
  now rewrite (scan_unixLines (String.length text)) by (lia || assumption || reflexivity).
Qed.

Lemma line_end_style_is_irrelevant_witness :
  hasQuote ("a,b" +:+ String CR (String LF ("c" +:+ String CR "d"))) = false /\
  parseCSV (unixLines ("a,b" +:+ String CR (String LF ("c" +:+ String CR "d"))))
  = parseCSV ("a,b" +:+ String CR (String LF ("c" +:+ String CR "d"))).
Proof.
  assert (H : hasQuote ("a,b" +:+ String CR (String LF ("c" +:+ String CR "d"))) = false)
    by reflexivity.
  split; [exact H|].
  exact (line_end_style_is_irrelevant _ H).
Defined.

(** ** The export quoting and the un-quoting pass *)

Lemma undouble_cons_other (c : ascii) (s : string) :
  Ascii.eqb c QUOTE = false -> undouble (String c s) = String c (undouble s).
Proof. intros H. destruct s as [|d s']; [reflexivity|]. cbn [undouble]. now rewrite H. Qed.

Lemma undouble_doubleQuotes (v : string) : undouble (doubleQuotes v) = v.
Proof.
  induction v as [|c r IH]; [reflexivity|].
  cbn [doubleQuotes]. destruct (Ascii.eqb_spec c QUOTE) as [->|Hc].
  - change (undouble (String QUOTE (String QUOTE (doubleQuotes r))))
      with (String QUOTE (undouble (doubleQuotes r))).
    now rewrite IH.
  - apply Ascii.eqb_neq in Hc. now rewrite undouble_cons_other, IH.
Qed.

Lemma stripTrailingQuote_snoc (s : string) :
  stripTrailingQuote (s +:+ String QUOTE EmptyString) = s.
Proof.
  induction s as [|c r IH]; [reflexivity|].
  rewrite sapp_cons.
  destruct (r +:+ String QUOTE EmptyString) as [|d t] eqn:E.
  - destruct r; discriminate.
  - change (stripTrailingQuote (String c (String d t)))
      with (String c (stripTrailingQuote (String d t))).
    now rewrite IH.
Qed.

(** X5. The un-quoting pass of the import undoes the quoting of the
    export: a value put between double quotes with its double quotes
    doubled comes back as it was, whatever it holds. *)
Theorem unquote_quoted (v : string) : unquote (quoted v) = v.
Proof.
  unfold unquote, quoted.
  change (stripLeadingQuote (String QUOTE (doubleQuotes v +:+ String QUOTE EmptyString)))
    with (doubleQuotes v +:+ String QUOTE EmptyString).
  now rewrite stripTrailingQuote_snoc, undouble_doubleQuotes.
Qed.

(** ** Header names *)

Lemma lower_char_idempotent (c : ascii) : lower_char (lower_char c) = lower_char c.
Proof. destruct c as [[] [] [] [] [] [] [] []]; reflexivity. Qed.

Lemma is_space_lower_char (c : ascii) : is_space (lower_char c) = is_space c.
Proof. destruct c as [[] [] [] [] [] [] [] []]; reflexivity. Qed.

Lemma toLowerCase_idempotent (s : string) :
  toLowerCase (toLowerCase s) = toLowerCase s.
Proof.
  induction s as [|c r IH]; [reflexivity|].
  cbn [toLowerCase]. now rewrite lower_char_idempotent, IH.
Qed.

Lemma toLowerCase_trimStart (s : string) :
  toLowerCase (trimStart s) = trimStart (toLowerCase s).
Proof.
  induction s as [|c r IH]; [reflexivity|].
  cbn [trimStart toLowerCase]. rewrite is_space_lower_char.
  now destruct (is_space c).
Qed.

Lemma toLowerCase_trimEnd (s : string) :
  toLowerCase (trimEnd s) = trimEnd (toLowerCase s).
Proof.
  induction s as [|c r IH]; [reflexivity|].
  cbn [trimEnd toLowerCase]. rewrite <- IH, is_space_lower_char.
  destruct (trimEnd r); [now destruct (is_space c) | reflexivity].
Qed.

Lemma toLowerCase_trim (s : string) : toLowerCase (trim s) = trim (toLowerCase s).
Proof. unfold trim. now rewrite toLowerCase_trimEnd, toLowerCase_trimStart. Qed.

Lemma trimEnd_idempotent (s : string) : trimEnd (trimEnd s) = trimEnd s.
Proof.
  induction s as [|c r IH]; [reflexivity|].
  cbn [trimEnd]. destruct (trimEnd r) as [|d t] eqn:E.
  - destruct (is_space c) eqn:Ec; [reflexivity|]. cbn [trimEnd]. now rewrite Ec.
  - cbn [trimEnd]. cbn [trimEnd] in IH. rewrite IH. reflexivity.
Qed.

Lemma trimStart_head (s : string) :
  match trimStart s with
  | String c _ => is_space c = false
  | EmptyString => True
  end.
Proof.
  induction s as [|c r IH]; [exact I|].
  cbn [trimStart]. destruct (is_space c) eqn:Ec; [exact IH | exact Ec].
Qed.

Lemma trim_idempotent (s : string) : trim (trim s) = trim s.
Proof.
  unfold trim. pose proof (trimStart_head s) as H.
  destruct (trimStart s) as [|c r]; [reflexivity|].
  assert (E : trimStart (trimEnd (String c r)) = trimEnd (String c r)).
  { cbn [trimEnd]. destruct (trimEnd r); rewrite ?H; cbn [trimStart]; now rewrite H. }
  now rewrite E, trimEnd_idempotent.
Qed.

(** A property name of a record built under normalised headers is in
    lower case and trimmed. *)
Lemma normalise_key (row0 : list string) (h : string) :
  h ∈ normalise row0 ->
  trim h = h /\ toLowerCase h = h.
Proof.
  unfold normalise. intros Hin.
  apply list_elem_of_fmap in Hin as (h0 & -> & _).
  split; [apply trim_idempotent|].
  now rewrite toLowerCase_trim, toLowerCase_idempotent.
Qed.

Lemma forEach_header_keys (values hs : list string) (key : string) :
  forall index (song : object),
    is_Some (forEach_header values index hs song !! key) ->
    key ∈ trim <$> hs \/ is_Some (song !! key).
Proof.
  induction hs as [|h rest IH]; intros index song Hkey; cbn [forEach_header] in *.
  - now right.
  - destruct (IH _ _ Hkey) as [Hin | Hsome].
    + left. cbn [fmap list_fmap]. now right.
    + destruct (decide (trim h = key)) as [<-|Hne].
      * left. cbn [fmap list_fmap]. left.
      * right. now rewrite assign_lookup_ne in Hsome.
Qed.

Lemma forEach_header_has (values hs : list string) (key : string) :
  key <> "__proto__" ->
  forall index (song : object),
    key ∈ trim <$> hs \/ is_Some (song !! key) ->
    is_Some (forEach_header values index hs song !! key).
Proof.
  intros Hname. induction hs as [|h rest IH]; intros index song Hkey;
    cbn [forEach_header].
  - destruct Hkey as [Hin | Hsome]; [now apply elem_of_nil in Hin | exact Hsome].
  - apply IH. destruct (decide (trim h = key)) as [<-|Hne].
    + right. rewrite assign_lookup_eq by exact Hname. eauto.
    + destruct Hkey as [Hin | Hsome].
      * left. cbn [fmap list_fmap] in Hin.
        apply elem_of_cons in Hin as [Heq | Hin]; [now destruct Hne | exact Hin].
      * right. now rewrite assign_lookup_ne.
Qed.

Lemma rowObject_keys (headers values : list string) (key : string) :
  is_Some (rowObject headers values !! key) -> key ∈ trim <$> headers.
Proof.
  intros Hkey. destruct (forEach_header_keys _ _ _ _ _ Hkey) as [Hin | Hsome];
    [exact Hin|].
  rewrite lookup_empty in Hsome. now destruct Hsome.
Qed.

Lemma rowObject_has (headers values : list string) (key : string) :
  key <> "__proto__" -> key ∈ trim <$> headers ->
  is_Some (rowObject headers values !! key).
Proof. intros Hname Hin. apply forEach_header_has; [exact Hname | now left]. Qed.

(** ** What a successful import hands over *)

Lemma toSong_inr (headers values : list string) (rowIndex : nat) (song : object) :
  toSong headers values rowIndex = inr song ->
  song = rowObject headers values /\
  truthy_prop (song !! "title") || truthy_prop (song !! "mnemonic") = true /\
  includes_prop validCategories (song !! "category") = true.
Proof.
  unfold toSong.
  destruct (truthy_prop (rowObject headers values !! "title")) eqn:Et;
  destruct (truthy_prop (rowObject headers values !! "mnemonic")) eqn:Em;
  destruct (includes_prop validCategories (rowObject headers values !! "category")) eqn:Ec;
  cbn [negb andb orb]; intros [= <-]; rewrite ?Et, ?Em, ?Ec; auto.
Qed.

Lemma mapRows_records (headers : list string) (rows : list (list string))
    (n : nat) (songs : list object) :
  mapRows headers n rows = inr songs ->
  forall i record, songs !! i = Some record ->
    exists values, rows !! i = Some values /\
                   toSong headers values (n + i) = inr record.
Proof.
  intros Hmap i record Hi.
  pose proof (mapRows_length _ _ _ _ Hmap) as Hlen.
  assert (Hlt : i < length rows)
    by (rewrite <- Hlen; eapply lookup_lt_Some, Hi).
  destruct (lookup_lt_is_Some_2 _ _ Hlt) as [values Hv].
  destruct (mapRows_success _ _ _ _ Hmap i values Hv) as (song & Hs & Hi').
  exists values. split; [exact Hv | congruence].
Qed.

Lemma handleFileChange_imported (text : string) (songs : list object) :
  handleFileChange text = [OnImport songs; OnClose] ->
  exists row0 rows,
    parseCSV text = row0 :: rows /\ rows <> [] /\
    "title" ∈ normalise row0 /\ "category" ∈ normalise row0 /\
    mapRows (normalise row0) 0 rows = inr songs.
Proof.
  unfold handleFileChange.
  destruct (importSongs text) as [e|songs'] eqn:E; [discriminate|].
  intros [= <-]. revert E. unfold importSongs.
  destruct (Nat.ltb (length (parseCSV text)) 2) eqn:Elen; [discriminate|].
  apply Nat.ltb_ge in Elen.
  destruct (parseCSV text) as [|row0 rows]; [discriminate|].
  fold (normalise row0).
  destruct (bool_decide ("title" ∈ normalise row0)) eqn:Et; [|discriminate].
  destruct (bool_decide ("category" ∈ normalise row0)) eqn:Ec; [|discriminate].
  cbn [negb orb]. intros Hmap.
  apply bool_decide_eq_true in Et, Ec.
  exists row0, rows. repeat split; try assumption.
  intros ->. cbn in Elen. lia.
Qed.

(** X6. When an import succeeds, onImport receives one record per data
    row, at least one, and every record has a category that the check
    constraint of the songs table accepts, a title property, and a title
    or a mnemonic that is not empty. *)
Theorem imported_records_are_valid (text : string) (songs : list object) :
  handleFileChange text = [OnImport songs; OnClose] ->
  songs <> [] /\
  S (length songs) = length (parseCSV text) /\
  Forall (fun record =>
            (exists c, record !! "category" = Some c /\
                       Schema.category_check c = true) /\
            is_Some (record !! "title") /\
            (field record "title" <> EmptyString \/
             field record "mnemonic" <> EmptyString)) songs.
Proof.
  intros H.
  destruct (handleFileChange_imported _ _ H)
    as (row0 & rows & Hparse & Hne & Ht & Hc & Hmap).
  pose proof (mapRows_length _ _ _ _ Hmap) as Hlen.
  split; [intros ->; destruct rows; [now destruct Hne | discriminate]|].
  split; [rewrite Hparse; cbn [length]; now rewrite Hlen|].
  apply Forall_lookup. intros i record Hi.
  destruct (mapRows_records _ _ _ _ Hmap i record Hi) as (values & _ & Hsong).
  apply toSong_inr in Hsong as (Hrec & Hpresence & Hcat).
  split; [|split].
  - pose proof Hcat as Hlisted.
    apply includes_validCategories in Hlisted as (c & Hc' & _).
    exists c. split; [exact Hc'|].
    change (Schema.category_check c)
      with (includes_prop validCategories (Some c)).
    now rewrite <- Hc'.
  - rewrite Hrec. apply rowObject_has; [discriminate|].
    apply list_elem_of_fmap.
    exists "title". split; [|exact Ht].
    symmetry. apply (normalise_key row0), Ht.
  - unfold field. apply orb_true_iff in Hpresence as [Hp | Hp];
      [left | right]; intros E; apply truthy_prop_false in E; congruence.
Qed.

Lemma imported_records_are_valid_witness :
  let text := "Title , CATEGORY" +:+ String LF ("A,angola" +:+ String LF "B,saoBentoGrande") in
  handleFileChange text
  = [OnImport [rowObject ["title"; "category"] ["A"; "angola"];
               rowObject ["title"; "category"] ["B"; "saoBentoGrande"]];
     OnClose] /\
  S (length [rowObject ["title"; "category"] ["A"; "angola"];
             rowObject ["title"; "category"] ["B"; "saoBentoGrande"]])
  = length (parseCSV text).
Proof.
  intros text.
  assert (H : handleFileChange text
    = [OnImport [rowObject ["title"; "category"] ["A"; "angola"];
                 rowObject ["title"; "category"] ["B"; "saoBentoGrande"]];
       OnClose]) by reflexivity.
  split; [exact H|].
  exact (proj1 (proj2 (imported_records_are_valid text _ H))).
Defined.

Lemma trim_normalise (row0 : list string) : trim <$> normalise row0 = normalise row0.
Proof.
  unfold normalise. rewrite <- list_fmap_compose.
  apply list_fmap_ext. intros _ h _. apply trim_idempotent.
Qed.

(** X7. Every property name of a record of a successful import is one
    of the lowercased and trimmed header cells: it holds no upper case
    letter and no outer white space, so no record has a mediaLink
    property, whatever the file. *)
Theorem imported_property_names (text : string) (songs : list object) :
  handleFileChange text = [OnImport songs; OnClose] ->
  Forall (fun record =>
            (forall key, is_Some (record !! key) ->
                         key ∈ normalise (List.hd [] (parseCSV text)) /\
                         toLowerCase key = key /\ trim key = key) /\
            record !! "mediaLink" = None) songs.
Proof.
  intros H.
  destruct (handleFileChange_imported _ _ H)
    as (row0 & rows & Hparse & _ & _ & _ & Hmap).
  rewrite Hparse. cbn [List.hd].
  apply Forall_lookup. intros i record Hi.
  destruct (mapRows_records _ _ _ _ Hmap i record Hi) as (values & _ & Hsong).
  apply toSong_inr in Hsong as (Hrec & _).
  assert (Hkeys : forall key, is_Some (record !! key) ->
                              key ∈ normalise row0 /\
                              toLowerCase key = key /\ trim key = key).
  { intros key Hkey. rewrite Hrec in Hkey.
    apply rowObject_keys in Hkey. rewrite trim_normalise in Hkey.
    destruct (normalise_key _ _ Hkey) as [? ?]. now repeat split. }
  split; [exact Hkeys|].
  destruct (record !! "mediaLink") as [v|] eqn:E; [|reflexivity].
  destruct (Hkeys "mediaLink") as (_ & Hlow & _); [rewrite E; eauto|].
  discriminate Hlow.
Qed.

Lemma imported_property_names_witness :
  let text := "title,category,mediaLink" +:+ String LF "A,angola,http://x" in
  handleFileChange text
  = [OnImport [rowObject ["title"; "category"; "medialink"]
                 ["A"; "angola"; "http://x"]]; OnClose] /\
  Forall (fun record => record !! "mediaLink" = None)
    [rowObject ["title"; "category"; "medialink"] ["A"; "angola"; "http://x"]].
Proof.
  intros text.
  assert (H : handleFileChange text
    = [OnImport [rowObject ["title"; "category"; "medialink"]
                   ["A"; "angola"; "http://x"]]; OnClose]) by reflexivity.
  split; [exact H|].
  eapply Forall_impl; [exact (imported_property_names text _ H)|].
  intros record (_ & Hm). exact Hm.
Defined.

(** ** Cells and header cells that do not pair up *)

Lemma forEach_header_agree (values values' hs : list string) :
  forall index (song : object),
    (forall j, j < length hs -> values !! (index + j) = values' !! (index + j)) ->
    forEach_header values index hs song = forEach_header values' index hs song.
Proof.
  induction hs as [|h rest IH]; intros index song Hsame; [reflexivity|].
  cbn [forEach_header].
  pose proof (Hsame 0 ltac:(cbn; lia)) as H0. rewrite Nat.add_0_r in H0.
  rewrite H0. apply IH. intros j Hj.
  replace (S index + j) with (index + S j) by lia.
  apply Hsame. cbn. lia.
Qed.

(** X8. The cells of a data row beyond the last header column are
    ignored: the row gives the same record, and the same verdict, as the
    row cut to the width of the header. *)
Theorem extra_cells_are_ignored
    (headers values extra : list string) (rowIndex : nat) :
  length headers <= length values ->
  rowObject headers (values ++ extra) = rowObject headers values /\
  toSong headers (values ++ extra) rowIndex = toSong headers values rowIndex.
Proof.
  intros Hlen.
  assert (E : rowObject headers (values ++ extra) = rowObject headers values).
  { unfold rowObject. apply forEach_header_agree. intros j Hj.
    apply lookup_app_l. cbn. lia. }
  split; [exact E|]. unfold toSong. now rewrite E.
Qed.

Lemma extra_cells_are_ignored_witness :
  length ["title"; "category"] <= length ["A"; "angola"] /\
  toSong ["title"; "category"] (["A"; "angola"] ++ ["x"; "y"]) 0
  = toSong ["title"; "category"] ["A"; "angola"] 0.
Proof.
  assert (H : length ["title"; "category"] <= length ["A"; "angola"])
    by (cbn; lia).
  split; [exact H|].
  exact (proj2 (extra_cells_are_ignored
                  ["title"; "category"] ["A"; "angola"] ["x"; "y"] 0 H)).
Defined.

(** X9. When several header cells have the same name, the record holds
    under that name the un-quoted cell below the last of them (the empty
    string when the row is too short).  The name __proto__, which a
    JavaScript object does not keep as a property of its own, is left
    out. *)
Theorem last_header_cell_wins
    (headers values : list string) (i : nat) (header : string) :
  headers !! i = Some header ->
  (forall j h, i < j -> headers !! j = Some h -> trim h <> trim header) ->
  trim header <> "__proto__" ->
  rowObject headers values !! trim header
  = Some (unquote (or_empty (values !! i))).
Proof.
  intros Hi Hlast Hname. unfold rowObject.
  now rewrite (forEach_header_lookup values headers 0 ∅ i header Hi Hlast Hname).
Qed.

Lemma last_header_cell_wins_witness :
  ["title"; "category"; "title"] !! 2 = Some "title" /\
  rowObject ["title"; "category"; "title"] ["A"; "angola"; "B"] !! trim "title"
  = Some (unquote (or_empty (["A"; "angola"; "B"] !! 2))).
Proof.
  assert (H : ["title"; "category"; "title"] !! 2 = Some "title") by reflexivity.
  split; [exact H|].
  apply (last_header_cell_wins ["title"; "category"; "title"]
           ["A"; "angola"; "B"] 2 "title" H).
  - intros j h Hj Hh. apply lookup_lt_Some in Hh. cbn in Hh. lia.
  - discriminate.
Defined.

(** ** What the import makes of an export *)

(** X10. Whatever the values hold, an export is read back by parseCSV as
    the header row followed by one row of exactly five cells per song,
    in the order of the songs. *)
Theorem export_parses_to_five_cell_rows (songs : list Song) :
  exists rows,
    parseCSV (handleExport songs) = headerCells :: rows /\
    length rows = length songs /\
    Forall (fun row => length row = 5) rows /\
    (forall i song, songs !! i = Some song ->
       exists a c d e,
         rows !! i = Some [a; categoryString (category song); c; d; e]).
Proof.
  exists (map parsedCells songs). rewrite parseCSV_handleExport.
  split; [reflexivity|]. split; [apply length_map|]. split.
  - apply Forall_forall. intros row Hin.
    apply list_elem_of_In, in_map_iff in Hin as (song & <- & _). reflexivity.
  - intros i song Hi. unfold parsedCells.
    change (map parsedCells songs) with (parsedCells <$> songs).
    rewrite list_lookup_fmap, Hi. cbn. eauto.
Qed.

Lemma toSong_export_cases (song : Song) (rowIndex : nat) :
  toSong exportHeaders (parsedCells song) rowIndex
  = if truthy (unquote (inQuotesData (title song)))
       || truthy (unquote (inQuotesData (orEmpty (mnemonic song))))
    then inr (rowObject exportHeaders (parsedCells song))
    else inl (TitleOrMnemonicRequired (rowIndex + 2)).
Proof.
  destruct (truthy (unquote (inQuotesData (title song)))
            || truthy (unquote (inQuotesData (orEmpty (mnemonic song))))) eqn:E.
  - now apply toSong_export.
  - unfold toSong, parsedCells.
    destruct (rowObject_export_lookups
                (inQuotesData (title song)) (categoryString (category song))
                (inQuotesData (orEmpty (mnemonic song)))
                (inQuotesData (orEmpty (lyrics song)))
                (inQuotesData (orEmpty (mediaLink song))))
      as (-> & _ & -> & _).
    cbn [truthy_prop]. now rewrite <- negb_orb, E.
Qed.

Lemma mapRows_export_cases (songs : list Song) : forall n,
  (exists records,
     mapRows exportHeaders n (map parsedCells songs) = inr records /\
     length records = length songs) \/
  (exists k song,
     songs !! k = Some song /\
     mapRows exportHeaders n (map parsedCells songs)
     = inl (TitleOrMnemonicRequired (n + k + 2)) /\
     unquote (inQuotesData (title song)) = EmptyString /\
     unquote (inQuotesData (orEmpty (mnemonic song))) = EmptyString).
Proof.
  induction songs as [|song rest IH]; intros n; [left; exists []; now split|].
  cbn [map mapRows]. rewrite toSong_export_cases.
  destruct (truthy (unquote (inQuotesData (title song)))
            || truthy (unquote (inQuotesData (orEmpty (mnemonic song))))) eqn:E.
  - destruct (IH (S n)) as [(records & -> & Hlen) | (k & s & Hk & -> & Ht & Hm)].
    + left. eexists. split; [reflexivity|]. cbn [length]. now rewrite Hlen.
    + right. exists (S k), s. repeat split; try assumption.
      do 2 f_equal. lia.
  - right. exists 0, song. apply orb_false_iff in E as [Et Em].
    repeat split.
    + do 2 f_equal. lia.
    + now destruct (unquote (inQuotesData (title song))).
    + now destruct (unquote (inQuotesData (orEmpty (mnemonic song)))).
Qed.

(** X11. Importing an export never fails on the header or on a
    category.  The export of no song is refused for having no data row;
    the export of one song or more is either imported, one record per
    song, or refused at the first song whose title and mnemonic both
    read back empty, with the line number of that song's row. *)
Theorem import_of_export (songs : list Song) :
  (songs = [] ->
   handleFileChange (handleExport songs) = [SetError TooFewRows]) /\
  (songs <> [] ->
   (exists records,
      handleFileChange (handleExport songs) = [OnImport records; OnClose] /\
      length records = length songs) \/
   (exists k song,
      songs !! k = Some song /\
      handleFileChange (handleExport songs)
      = [SetError (TitleOrMnemonicRequired (k + 2))] /\
      unquote (inQuotesData (title song)) = EmptyString /\
      unquote (inQuotesData (orEmpty (mnemonic song))) = EmptyString)).
Proof.
  split; [now intros ->|].
  intros Hne. unfold handleFileChange, importSongs.
  rewrite parseCSV_handleExport.
  destruct songs as [|song rest]; [now destruct Hne|].
  change (Nat.ltb (length (headerCells :: map parsedCells (song :: rest))) 2)
    with false.
  cbv iota. fold (normalise headerCells). rewrite normalise_headerCells.
  change (negb (bool_decide ("title" ∈ exportHeaders))
          || negb (bool_decide ("category" ∈ exportHeaders))) with false.
  cbv iota.
  destruct (mapRows_export_cases (song :: rest) 0)
    as [(records & -> & Hlen) | (k & s & Hk & -> & Ht & Hm)].
  - left. eauto.
  - right. exists k, s. repeat split; assumption.
Qed.

(** ** The category sections *)

Section Sections.
Import CategorySection.
Context (localeCompare : string -> string -> Z).

Lemma insert_Permutation (x : Song) (l : list Song) :
  insert localeCompare x l ≡ₚ x :: l.
Proof.
  induction l as [|y rest IH]; [reflexivity|].
  cbn [insert]. destruct (Z.leb (compareTitles localeCompare x y) 0);
    [reflexivity|].
  rewrite IH. apply Permutation_swap.
Qed.

Lemma sort_Permutation (l : list Song) : sort localeCompare l ≡ₚ l.
Proof.
  induction l as [|x rest IH]; [reflexivity|].
  cbn [sort]. now rewrite insert_Permutation, IH.
Qed.

Lemma filter_by_category (songs : list Song) :
  List.filter (fun song => bool_decide (category song = angola)) songs
  ++ List.filter (fun song => bool_decide (category song = saoBentoPequeno)) songs
  ++ List.filter (fun song => bool_decide (category song = saoBentoGrande)) songs
  ≡ₚ songs.
Proof.
  induction songs as [|song rest IH]; [reflexivity|].
  cbn [List.filter].
  destruct (category song); repeat case_bool_decide; try congruence; cbn [app].
  - now constructor.
  - rewrite <- Permutation_middle. now constructor.
  - rewrite app_assoc, <- Permutation_middle, <- app_assoc. now constructor.
Qed.

Section Consistent.
Hypothesis transitive : forall a b c : string,
  (localeCompare a b <= 0 -> localeCompare b c <= 0 -> localeCompare a c <= 0)%Z.
Hypothesis total : forall a b : string,
  (localeCompare a b <= 0 \/ localeCompare b a <= 0)%Z.

Lemma insert_sorted (x : Song) (l : list Song) :
  StronglySorted (ranksBefore localeCompare) l ->
  StronglySorted (ranksBefore localeCompare) (insert localeCompare x l).
Proof.
  induction l as [|y rest IH]; intros Hs.
  - repeat constructor.
  - cbn [insert]. apply StronglySorted_inv in Hs as [Hrest Hy].
    destruct (Z.leb_spec (compareTitles localeCompare x y) 0) as [Hle|Hgt].
    + constructor; [now constructor|].
      constructor; [exact Hle|].
      eapply Forall_impl; [exact Hy|]. intros z Hz.
      unfold ranksBefore, compareTitles in *. now apply (transitive _ (title y)).
    + constructor; [now apply IH|].
      rewrite insert_Permutation. constructor; [|exact Hy].
      unfold ranksBefore, compareTitles in *.
      destruct (total (title x) (title y)); [lia | assumption].
Qed.

Lemma sort_sorted (l : list Song) :
  StronglySorted (ranksBefore localeCompare) (sort localeCompare l).
Proof.
  induction l as [|x rest IH]; [constructor|].
  cbn [sort]. now apply insert_sorted.
Qed.

(** Songs level with [k] keep their places among themselves when [x] is
    inserted. *)
Lemma insert_stable (k x : Song) (l : list Song) :
  List.filter (tie localeCompare k) (insert localeCompare x l)
  = List.filter (tie localeCompare k) (x :: l).
Proof.
  induction l as [|y rest IH]; [reflexivity|].
  cbn [insert].
  destruct (Z.leb_spec (compareTitles localeCompare x y) 0) as [Hle|Hgt];
    [reflexivity|].
  cbn [List.filter] in *. rewrite IH.
  destruct (tie localeCompare k x) eqn:Ex; [|reflexivity].
  destruct (tie localeCompare k y) eqn:Ey; [|reflexivity].
  exfalso. unfold tie, compareTitles in *.
  apply andb_true_iff in Ex as [Ex1 Ex2]. apply andb_true_iff in Ey as [Ey1 Ey2].
  apply Z.leb_le in Ex1, Ex2, Ey1, Ey2.
  pose proof (transitive _ _ _ Ex2 Ey1). lia.
Qed.

Lemma sort_stable (k : Song) (l : list Song) :
  List.filter (tie localeCompare k) (sort localeCompare l)
  = List.filter (tie localeCompare k) l.
Proof.
  induction l as [|x rest IH]; [reflexivity|].
  cbn [sort]. rewrite insert_stable. cbn [List.filter]. now rewrite IH.
Qed.

End Consistent.
End Sections.

(** X12. The three sections of the home page share out the songs: a
    song is on the page once, in the section of its category, and the
    three numbers in the headings add up to the number of songs,
    whatever the collation. *)
Theorem sections_share_out_the_songs
    (localeCompare : string -> string -> Z) (songs : list Song) :
  CategorySection.categorySongs localeCompare songs angola
  ++ CategorySection.categorySongs localeCompare songs saoBentoPequeno
  ++ CategorySection.categorySongs localeCompare songs saoBentoGrande
  ≡ₚ songs /\
  (forall c song,
     song ∈ CategorySection.categorySongs localeCompare songs c <->
     song ∈ songs /\ category song = c) /\
  sum_list (fst <$> CategorySection.sections localeCompare songs) = length songs.
Proof.
  assert (Hperm : CategorySection.categorySongs localeCompare songs angola
    ++ CategorySection.categorySongs localeCompare songs saoBentoPequeno
    ++ CategorySection.categorySongs localeCompare songs saoBentoGrande
    ≡ₚ songs).
  { unfold CategorySection.categorySongs.
    rewrite !sort_Permutation. apply filter_by_category. }
  split; [exact Hperm|]. split.
  - intros c song. unfold CategorySection.categorySongs.
    rewrite sort_Permutation, list_elem_of_In, filter_In, <- list_elem_of_In.
    now rewrite bool_decide_eq_true.
  - unfold CategorySection.sections, CategorySection.render.
    cbn [fmap list_fmap fst sum_list sum_list_with].
    rewrite <- (Permutation_length Hperm), !length_app. unfold id. lia.
Qed.

(** X13. When the collation is a consistent comparator (transitive and
    total), a section lists its songs in the order of their titles, and
    songs whose titles the collation ranks level stay in the order they
    have in the song list. *)
Theorem sections_are_sorted_and_stable
    (localeCompare : string -> string -> Z) (songs : list Song) (c : SongCategory) :
  (forall a b d : string,
     localeCompare a b <= 0 -> localeCompare b d <= 0 -> localeCompare a d <= 0)%Z ->
  (forall a b : string, localeCompare a b <= 0 \/ localeCompare b a <= 0)%Z ->
  StronglySorted (ranksBefore localeCompare)
    (CategorySection.categorySongs localeCompare songs c) /\
  (forall k : Song,
     List.filter (tie localeCompare k)
       (CategorySection.categorySongs localeCompare songs c)
     = List.filter (tie localeCompare k)
         (List.filter (fun song => bool_decide (category song = c)) songs)).
Proof.
  intros Htrans Htotal. unfold CategorySection.categorySongs. split.
  - now apply sort_sorted.
  - intros k. now apply sort_stable.
Qed.

Lemma sections_are_sorted_and_stable_witness :
  let byLength := fun a b : string =>
    (Z.of_nat (String.length a) - Z.of_nat (String.length b))%Z in
  let song := fun t : string =>
    {| title := t; category := angola;
       mnemonic := None; lyrics := None; mediaLink := None |} in
  (forall a b d : string,
     byLength a b <= 0 -> byLength b d <= 0 -> byLength a d <= 0)%Z /\
  (forall a b : string, byLength a b <= 0 \/ byLength b a <= 0)%Z /\
  StronglySorted (ranksBefore byLength)
    (CategorySection.categorySongs byLength
       [song "ccc"; song "a"; song "bb"] angola).
Proof.
  intros byLength song.
  assert (H1 : forall a b d : string,
     (byLength a b <= 0 -> byLength b d <= 0 -> byLength a d <= 0)%Z)
    by (unfold byLength; intros; lia).
  assert (H2 : forall a b : string, (byLength a b <= 0 \/ byLength b a <= 0)%Z)
    by (unfold byLength; intros; lia).
  split; [exact H1|]. split; [exact H2|].
  exact (proj1 (sections_are_sorted_and_stable byLength
                  [song "ccc"; song "a"; song "bb"] angola H1 H2)).
Defined.

(** ** The song page *)

Lemma find_None (songs : list SongView.StoredSong) (routeId : option string) :
  SongView.find songs routeId = None <->
  forall s, s ∈ songs -> Some (SongView.id s) <> routeId.
Proof.
  induction songs as [|s rest IH]; cbn [SongView.find].
  - split; [intros _ s Hs; now apply elem_of_nil in Hs | reflexivity].
  - case_bool_decide as E.
    + split; [discriminate|]. intros H. destruct (H s); [left | exact E].
    + rewrite IH. split.
      * intros H s' Hs'. apply elem_of_cons in Hs' as [->|Hs']; auto.
      * intros H s' Hs'. apply H. now right.
Qed.

(** X14. The song page renders nothing exactly when the route gives no
    id or no song has the id; otherwise it renders the first song of the
    list with that id: its title always, and its mnemonic, lyrics and
    media link each only when the value is neither missing nor empty. *)
Theorem song_view_shows_first_match
    (songs : list SongView.StoredSong) (routeId : option string) :
  (SongView.SongView songs routeId = None <->
   forall s, s ∈ songs -> Some (SongView.id s) <> routeId) /\
  SongView.SongView songs None = None /\
  (forall before s after,
     songs = before ++ s :: after ->
     Some (SongView.id s) = routeId ->
     (forall s', s' ∈ before -> Some (SongView.id s') <> routeId) ->
     SongView.SongView songs routeId
     = Some (SongView.Heading (title (SongView.fields s))
             :: (if truthy (orEmpty (mnemonic (SongView.fields s)))
                 then [SongView.Mnemonic (orEmpty (mnemonic (SongView.fields s)))]
                 else [])
             ++ (if truthy (orEmpty (lyrics (SongView.fields s)))
                 then [SongView.Lyrics (orEmpty (lyrics (SongView.fields s)))]
                 else [])
             ++ (if truthy (orEmpty (mediaLink (SongView.fields s)))
                 then [SongView.MediaLink (orEmpty (mediaLink (SongView.fields s)))]
                 else []))).
Proof.
  split; [|split].
  - unfold SongView.SongView. rewrite <- find_None.
    destruct (SongView.find songs routeId); split; (discriminate || reflexivity).
  - unfold SongView.SongView.
    assert (E : SongView.find songs None = None)
      by (apply find_None; intros s _; discriminate).
    now rewrite E.
  - intros before s after -> Hid Hbefore. unfold SongView.SongView.
    assert (E : SongView.find (before ++ s :: after) routeId = Some s).
    { induction before as [|b rest IH]; cbn [app SongView.find].
      - now rewrite bool_decide_eq_true_2.
      - rewrite bool_decide_eq_false_2 by (apply Hbefore; left).
        apply IH. intros s' Hs'. apply Hbefore. now right. }
    rewrite E. unfold SongView.whenTruthy.
    destruct (mnemonic (SongView.fields s)) as [[|? ?]|];
    destruct (lyrics (SongView.fields s)) as [[|? ?]|];
    destruct (mediaLink (SongView.fields s)) as [[|? ?]|]; reflexivity.
Qed.

(** ** Statements of one session against the rows of another *)

Section Isolation.
Import Schema.
Context {Row : Type} (policies : list (policy Row)) (cs : constraints Row).
Context (user_id : Row -> uuid) (users : list uuid) (s : session).
Hypothesis using_own : forall c r,
  using_ok policies c s r = true -> owns s (user_id r) = true.
Hypothesis check_own : forall c r,
  check_ok policies c s r = true -> owns s (user_id r) = true.

Lemma foreign_app (t1 t2 : list Row) :
  foreign user_id s (t1 ++ t2) = foreign user_id s t1 ++ foreign user_id s t2.
Proof. unfold foreign. apply List.filter_app. Qed.

Lemma update_keeps_foreign (where_ : Row -> bool) (set : Row -> Row)
    (table : list Row) :
  forallb (fun r => negb (using_ok policies UPDATE s r && where_ r)
                    || check_ok policies UPDATE s (set r)) table = true ->
  foreign user_id s
    (map (fun r => if using_ok policies UPDATE s r && where_ r then set r else r)
       table)
  = foreign user_id s table.
Proof.
  induction table as [|r rest IH]; [reflexivity|].
  cbn [forallb map]. intros H. apply andb_true_iff in H as [Hr Hrest].
  unfold foreign in *. cbn [List.filter]. rewrite (IH Hrest).
  destruct (using_ok policies UPDATE s r && where_ r) eqn:Et; [|reflexivity].
  cbn [negb orb] in Hr.
  apply andb_true_iff in Et as [Hu _].
  now rewrite (using_own _ _ Hu), (check_own _ _ Hr).
Qed.

Lemma delete_keeps_foreign (where_ : Row -> bool) (table : list Row) :
  foreign user_id s
    (List.filter (fun r => negb (using_ok policies DELETE s r && where_ r)) table)
  = foreign user_id s table.
Proof.
  induction table as [|r rest IH]; [reflexivity|].
  unfold foreign in *. cbn [List.filter].
  destruct (using_ok policies DELETE s r && where_ r) eqn:Et; cbn [negb].
  - apply andb_true_iff in Et as [Hu _].
    now rewrite IH, (using_own _ _ Hu).
  - cbn [List.filter]. now rewrite IH.
Qed.

Lemma run_keeps_foreign (stmt : statement Row) (table : list Row) :
  foreign user_id s (after (run users policies cs s stmt table) table)
  = foreign user_id s table.
Proof.
  destruct stmt as [where_ | new | where_ set | where_]; cbn [run].
  - reflexivity.
  - unfold insert. destruct (check_ok policies INSERT s new) eqn:E;
      [|reflexivity].
    cbn [negb].
    destruct (admits cs new table && references_ok users cs None new);
      [|reflexivity].
    cbn [after]. rewrite foreign_app. unfold foreign at 2. cbn [List.filter].
    rewrite (check_own _ _ E). cbn [negb]. apply app_nil_r.
  - destruct (after_update policies cs s where_ set users table)
      as [-> | [-> Hall]]; [reflexivity|].
    now apply update_keeps_foreign.
  - unfold delete. cbn [after]. apply delete_keeps_foreign.
Qed.

Lemma runAll_keeps_foreign (stmts : list (statement Row)) : forall table,
  foreign user_id s (runAll users policies cs s stmts table)
  = foreign user_id s table.
Proof.
  induction stmts as [|stmt rest IH]; intros table; [reflexivity|].
  cbn [runAll]. now rewrite IH, run_keeps_foreign.
Qed.

End Isolation.

Lemma songs_using_own (s : Schema.session) c r :
  Schema.using_ok Schema.songs_policies c s r = true ->
  owns s (Schema.songs_user_id r) = true.
Proof. rewrite using_ok_songs. now destruct c. Qed.

Lemma songs_check_own (s : Schema.session) c r :
  Schema.check_ok Schema.songs_policies c s r = true ->
  owns s (Schema.songs_user_id r) = true.
Proof. rewrite check_ok_songs. now destruct c. Qed.

Lemma settings_using_own (s : Schema.session) c r :
  Schema.using_ok Schema.prompter_settings_policies c s r = true ->
  owns s (Schema.settings_user_id r) = true.
Proof. rewrite using_ok_settings. now destruct c. Qed.

Lemma settings_check_own (s : Schema.session) c r :
  Schema.check_ok Schema.prompter_settings_policies c s r = true ->
  owns s (Schema.settings_user_id r) = true.
Proof. rewrite check_ok_settings. now destruct c. Qed.

(** X15. Whatever sequence of select, insert, update and delete
    statements a session runs on songs or on prompter_settings, the rows
    that belong to other identities are afterwards what they were
    before, one by one and in the same order. *)
Theorem other_owners_rows_are_untouched (s : Schema.session) :
  (forall users stmts table,
     foreign Schema.songs_user_id s
       (runAll users Schema.songs_policies Schema.songs_constraints s stmts table)
     = foreign Schema.songs_user_id s table) /\
  (forall users stmts table,
     foreign Schema.settings_user_id s
       (runAll users Schema.prompter_settings_policies
          Schema.prompter_settings_constraints s stmts table)
     = foreign Schema.settings_user_id s table).
Proof.
  split; intros users stmts table.
  - apply runAll_keeps_foreign; [apply songs_using_own | apply songs_check_own].
  - apply runAll_keeps_foreign; [apply settings_using_own | apply settings_check_own].
Qed.

Lemma filter_through_foreign {Row : Type} (user_id : Row -> Schema.uuid)
    (s1 s2 : Schema.session) (where_ : Row -> bool) (table : list Row) :
  Schema.auth_uid s1 <> Schema.auth_uid s2 ->
  List.filter (fun r => owns s1 (user_id r) && where_ r) table
  = List.filter (fun r => owns s1 (user_id r) && where_ r) (foreign user_id s2 table).
Proof.
  intros Hdiff. induction table as [|r rest IH]; [reflexivity|].
  unfold foreign in *. cbn [List.filter].
  destruct (owns s1 (user_id r)) eqn:E1; cbn [andb].
  - assert (E2 : owns s2 (user_id r) = false).
    { destruct (owns s2 (user_id r)) eqn:E2; [|reflexivity].
      unfold owns in E1, E2.
      apply andb_true_iff in E1 as [_ E1]. apply andb_true_iff in E2 as [_ E2].
      apply bool_decide_eq_true in E1, E2. congruence. }
    rewrite E2. cbn [negb List.filter]. rewrite E1. cbn [andb].
    now rewrite IH.
  - destruct (negb (owns s2 (user_id r))); [|exact IH].
    cbn [List.filter]. rewrite E1. cbn [andb]. exact IH.
Qed.

Lemma select_songs_returned (s : Schema.session) where_ table :
  returned (Schema.select Schema.songs_policies s where_ table)
  = List.filter (fun r => owns s (Schema.songs_user_id r) && where_ r) table.
Proof.
  unfold Schema.select. cbn [returned].
  apply filter_ext. intros r. now rewrite using_ok_songs.
Qed.

Lemma select_settings_returned (s : Schema.session) where_ table :
  returned (Schema.select Schema.prompter_settings_policies s where_ table)
  = List.filter (fun r => owns s (Schema.settings_user_id r) && where_ r) table.
Proof.
  unfold Schema.select. cbn [returned].
  apply filter_ext. intros r. now rewrite using_ok_settings.
Qed.

(** X16. What a session reads does not depend on what a session of
    another identity has done: after any sequence of statements of the
    second session, every select of the first returns the rows it
    returned before, on songs and on prompter_settings. *)
Theorem reads_are_unaffected_by_other_sessions (s1 s2 : Schema.session) :
  Schema.auth_uid s1 <> Schema.auth_uid s2 ->
  (forall users stmts where_ table,
     returned (Schema.select Schema.songs_policies s1 where_
                 (runAll users Schema.songs_policies Schema.songs_constraints
                    s2 stmts table))
     = returned (Schema.select Schema.songs_policies s1 where_ table)) /\
  (forall users stmts where_ table,
     returned (Schema.select Schema.prompter_settings_policies s1 where_
                 (runAll users Schema.prompter_settings_policies
                    Schema.prompter_settings_constraints s2 stmts table))
     = returned (Schema.select Schema.prompter_settings_policies s1 where_ table)).
Proof.
  intros Hdiff. split; intros users stmts where_ table.
  - rewrite !select_songs_returned.
    rewrite (filter_through_foreign Schema.songs_user_id s1 s2 where_
               (runAll users Schema.songs_policies Schema.songs_constraints
                  s2 stmts table) Hdiff).
    rewrite (filter_through_foreign Schema.songs_user_id s1 s2 where_ table Hdiff).
    f_equal. apply runAll_keeps_foreign;
      [apply songs_using_own | apply songs_check_own].
  - rewrite !select_settings_returned.
    rewrite (filter_through_foreign Schema.settings_user_id s1 s2 where_
               (runAll users Schema.prompter_settings_policies
                  Schema.prompter_settings_constraints s2 stmts table) Hdiff).
    rewrite (filter_through_foreign Schema.settings_user_id s1 s2 where_ table Hdiff).
    f_equal. apply runAll_keeps_foreign;
      [apply settings_using_own | apply settings_check_own].
Qed.

Lemma reads_are_unaffected_by_other_sessions_witness :
  let alice := {| Schema.session_role := Schema.authenticated;
                  Schema.auth_uid := Some 1%positive |} in
  let bob := {| Schema.session_role := Schema.authenticated;
                Schema.auth_uid := Some 2%positive |} in
  let row := {| Schema.id := 7%positive; Schema.songs_user_id := 1%positive;
                Schema.title := Schema.Text "Paranaue" eq_refl;
                Schema.category := Schema.Text "angola" eq_refl;
                Schema.mnemonic := None; Schema.lyrics := None;
                Schema.media_link := None |} in
  Schema.auth_uid alice <> Schema.auth_uid bob /\
  returned (Schema.select Schema.songs_policies alice (fun _ => true)
              (runAll [1%positive; 2%positive] Schema.songs_policies
                 Schema.songs_constraints bob [Delete (fun _ => true)] [row]))
  = returned (Schema.select Schema.songs_policies alice (fun _ => true) [row]).
Proof.
  intros alice bob row.
  assert (H : Schema.auth_uid alice <> Schema.auth_uid bob) by discriminate.
  split; [exact H|].
  exact (proj1 (reads_are_unaffected_by_other_sessions alice bob H)
           [1%positive; 2%positive] [Delete (fun _ => true)] (fun _ => true) [row]).
Defined.

Section Powerless.
Import Schema.
Context {Row : Type} (policies : list (policy Row)) (cs : constraints Row).
Context (users : list uuid) (s : session).
Hypothesis no_using : forall c r, using_ok policies c s r = false.
Hypothesis no_check : forall c r, check_ok policies c s r = false.

Lemma run_powerless (stmt : statement Row) (table : list Row) :
  returned (run users policies cs s stmt table) = [] /\
  after (run users policies cs s stmt table) table = table.
Proof.
  destruct stmt as [where_ | new | where_ set | where_]; cbn [run].
  - unfold select. cbn [returned after]. split; [|reflexivity].
    induction table as [|r rest IH]; [reflexivity|].
    cbn [List.filter]. now rewrite no_using.
  - unfold insert. now rewrite no_check.
  - assert (E1 : forall t,
      List.filter (fun r => using_ok policies UPDATE s r && where_ r) t = []).
    { intros t. induction t as [|r rest IH]; [reflexivity|].
      cbn [List.filter]. rewrite no_using. cbn [andb]. exact IH. }
    assert (E2 : forall t,
      map (fun r => if using_ok policies UPDATE s r && where_ r
                    then set r else r) t = t).
    { intros t. induction t as [|r rest IH]; [reflexivity|].
      cbn [map]. rewrite no_using. cbn [andb]. now rewrite IH. }
    destruct (update policies users cs s where_ set table) as [w t| |] eqn:E;
      [|split; reflexivity..].
    apply update_Done in E as (-> & -> & _).
    cbn [returned after]. now rewrite E1, E2.
  - unfold delete. cbn [returned after]. split.
    + induction table as [|r rest IH]; [reflexivity|].
      cbn [List.filter]. now rewrite no_using.
    + induction table as [|r rest IH]; [reflexivity|].
      cbn [List.filter]. rewrite no_using. cbn [andb negb]. now rewrite IH.
Qed.

End Powerless.

Lemma owns_unauthenticated (s : Schema.session) (owner : Schema.uuid) :
  Schema.session_role s = Schema.anon \/ Schema.auth_uid s = None ->
  owns s owner = false.
Proof.
  unfold owns. intros [H | H]; rewrite H.
  - reflexivity.
  - rewrite (bool_decide_eq_false_2 (None = Some owner)) by discriminate.
    apply andb_false_r.
Qed.

(** X17. A session that runs under the role anon, or has no identity,
    can neither read nor write: each of its statements on songs or on
    prompter_settings returns no row and leaves the table as it was. *)
Theorem unauthenticated_session_is_powerless (s : Schema.session) :
  Schema.session_role s = Schema.anon \/ Schema.auth_uid s = None ->
  (forall users stmt table,
     returned (run users Schema.songs_policies Schema.songs_constraints
                 s stmt table) = [] /\
     after (run users Schema.songs_policies Schema.songs_constraints
              s stmt table) table = table) /\
  (forall users stmt table,
     returned (run users Schema.prompter_settings_policies
                 Schema.prompter_settings_constraints s stmt table) = [] /\
     after (run users Schema.prompter_settings_policies
              Schema.prompter_settings_constraints s stmt table) table = table).
Proof.
  intros H. split; intros users stmt table; apply run_powerless; intros c r.
  - rewrite using_ok_songs, (owns_unauthenticated _ _ H). now destruct c.
  - rewrite check_ok_songs, (owns_unauthenticated _ _ H). now destruct c.
  - rewrite using_ok_settings, (owns_unauthenticated _ _ H). now destruct c.
  - rewrite check_ok_settings, (owns_unauthenticated _ _ H). now destruct c.
Qed.

Lemma unauthenticated_session_is_powerless_witness :
  let visitor := {| Schema.session_role := Schema.anon;
                    Schema.auth_uid := None |} in
  let row := {| Schema.id := 7%positive; Schema.songs_user_id := 1%positive;
                Schema.title := Schema.Text "Paranaue" eq_refl;
                Schema.category := Schema.Text "angola" eq_refl;
                Schema.mnemonic := None; Schema.lyrics := None;
                Schema.media_link := None |} in
  (Schema.session_role visitor = Schema.anon \/ Schema.auth_uid visitor = None) /\
  returned (run [1%positive] Schema.songs_policies Schema.songs_constraints
              visitor (Insert row) []) = [] /\
  after (run [1%positive] Schema.songs_policies Schema.songs_constraints
           visitor (Insert row) []) [] = [].
Proof.
  intros visitor row.
  assert (H : Schema.session_role visitor = Schema.anon \/
              Schema.auth_uid visitor = None) by (left; reflexivity).
  split; [exact H|].
  exact (proj1 (unauthenticated_session_is_powerless visitor H)
           [1%positive] (Insert row) []).
Defined.

(** X18. A row that a session inserts under its own identity, and that
    the constraints of the table admit, is stored and is returned by the
    session's next select whose condition it meets.  On songs the row
    has a listed category, an id no stored song has and an owner among
    the users; on prompter_settings it has a listed font size and an
    owner among the users who has no settings row yet. *)
Theorem inserted_row_is_read_back
    (users : list Schema.uuid) (s : Schema.session)
    (song : Schema.songs_row) (songWhere : Schema.songs_row -> bool)
    (songs : list Schema.songs_row)
    (setting : Schema.prompter_settings_row)
    (settingWhere : Schema.prompter_settings_row -> bool)
    (settings : list Schema.prompter_settings_row) :
  owns s (Schema.songs_user_id song) = true -> songWhere song = true ->
  Schema.category_check (Schema.text_value (Schema.category song)) = true ->
  Schema.id song ∉ map Schema.id songs ->
  Schema.songs_user_id song ∈ users ->
  owns s (Schema.settings_user_id setting) = true -> settingWhere setting = true ->
  Schema.font_size_check (Schema.text_value (Schema.font_size setting)) = true ->
  Schema.settings_user_id setting ∉ map Schema.settings_user_id settings ->
  Schema.settings_user_id setting ∈ users ->
  (run users Schema.songs_policies Schema.songs_constraints s (Insert song) songs
   = Schema.Done [song] (songs ++ [song]) /\
   song ∈ returned (run users Schema.songs_policies Schema.songs_constraints
                      s (Select songWhere) (songs ++ [song]))) /\
  (run users Schema.prompter_settings_policies
     Schema.prompter_settings_constraints s (Insert setting) settings
   = Schema.Done [setting] (settings ++ [setting]) /\
   setting ∈ returned (run users Schema.prompter_settings_policies
                         Schema.prompter_settings_constraints s
                         (Select settingWhere) (settings ++ [setting]))).
Proof.
  intros Hown1 Hwhere1 Hcat Hid Huser1 Hown2 Hwhere2 Hfont Hkey Huser2.
  split; cbn [run].
  - split.
    + unfold Schema.insert, Schema.admits, Schema.references_ok.
      rewrite check_ok_songs, Hown1.
      cbn [negb Schema.songs_constraints Schema.row_check Schema.primary_key
           Schema.references_user].
      rewrite Hcat, (bool_decide_eq_false_2 _ Hid), (bool_decide_eq_true_2 _ Huser1).
      reflexivity.
    + rewrite select_songs_returned, list_elem_of_In, filter_In.
      split; [apply in_or_app; right; now left | now rewrite Hown1].
  - split.
    + unfold Schema.insert, Schema.admits, Schema.references_ok.
      rewrite check_ok_settings, Hown2.
      cbn [negb Schema.prompter_settings_constraints Schema.row_check
           Schema.primary_key Schema.references_user].
      rewrite Hfont, (bool_decide_eq_false_2 _ Hkey), (bool_decide_eq_true_2 _ Huser2).
      reflexivity.
    + rewrite select_settings_returned, list_elem_of_In, filter_In.
      split; [apply in_or_app; right; now left | now rewrite Hown2].
Qed.

Lemma inserted_row_is_read_back_witness :
  let alice := {| Schema.session_role := Schema.authenticated;
                  Schema.auth_uid := Some 1%positive |} in
  let song := {| Schema.id := 7%positive; Schema.songs_user_id := 1%positive;
                 Schema.title := Schema.Text "Paranaue" eq_refl;
                 Schema.category := Schema.Text "angola" eq_refl;
                 Schema.mnemonic := None; Schema.lyrics := None;
                 Schema.media_link := None |} in
  let setting := {| Schema.settings_user_id := 1%positive;
                    Schema.rotation_interval := Schema.Int4 120 eq_refl;
                    Schema.font_size := Schema.Text "medium" eq_refl;
                    Schema.is_dark_mode := true;
                    Schema.use_high_contrast := false;
                    Schema.upper_case := false |} in
  (owns alice (Schema.songs_user_id song) = true /\
   Schema.category_check (Schema.text_value (Schema.category song)) = true /\
   (Schema.id song ∉ map Schema.id []) /\
   Schema.songs_user_id song ∈ [1%positive]) /\
  (owns alice (Schema.settings_user_id setting) = true /\
   Schema.font_size_check (Schema.text_value (Schema.font_size setting)) = true /\
   (Schema.settings_user_id setting ∉ map Schema.settings_user_id []) /\
   Schema.settings_user_id setting ∈ [1%positive]) /\
  run [1%positive] Schema.songs_policies Schema.songs_constraints
    alice (Insert song) []
  = Schema.Done [song] ([] ++ [song]).
Proof.
  intros alice song setting.
  assert (H1 : owns alice (Schema.songs_user_id song) = true) by reflexivity.
  assert (H2 : Schema.category_check
                 (Schema.text_value (Schema.category song)) = true)
    by (vm_compute; reflexivity).
  assert (H3 : Schema.id song ∉ map Schema.id []) by apply not_elem_of_nil.
  assert (H4 : Schema.songs_user_id song ∈ [1%positive])
    by apply list_elem_of_here.
  assert (H5 : owns alice (Schema.settings_user_id setting) = true) by reflexivity.
  assert (H6 : Schema.font_size_check
                 (Schema.text_value (Schema.font_size setting)) = true)
    by (vm_compute; reflexivity).
  assert (H7 : Schema.settings_user_id setting ∉ map Schema.settings_user_id [])
    by apply not_elem_of_nil.
  assert (H8 : Schema.settings_user_id setting ∈ [1%positive])
    by apply list_elem_of_here.
  split; [now repeat split|]. split; [now repeat split|].
  exact (proj1 (proj1 (inserted_row_is_read_back [1%positive] alice
                         song (fun _ => true) []
                         setting (fun _ => true) []
                         H1 eq_refl H2 H3 H4 H5 eq_refl H6 H7 H8))).
Defined.

(** X19. After a session has deleted the songs that meet a condition, a
    select with the same condition returns no row to it. *)
Theorem deleted_songs_are_gone
    (users : list Schema.uuid)
    (s : Schema.session) (where_ : Schema.songs_row -> bool)
    (table : list Schema.songs_row) :
  returned
    (run users Schema.songs_policies Schema.songs_constraints s (Select where_)
       (after (run users Schema.songs_policies Schema.songs_constraints
                 s (Delete where_) table) table))
  = [].
Proof.
  cbn [run]. rewrite select_songs_returned.
  unfold Schema.delete. cbn [after].
  induction table as [|r rest IH]; [reflexivity|].
  cbn [List.filter]. rewrite using_ok_songs.
  destruct (owns s (Schema.songs_user_id r) && where_ r) eqn:E; cbn [negb].
  - exact IH.
  - cbn [List.filter]. now rewrite E.
Qed.

Lemma owns_same_owner (s : Schema.session) (a b : Schema.uuid) :
  owns s a = true -> owns s b = true -> a = b.
Proof.
  unfold owns. intros Ha Hb.
  apply andb_true_iff in Ha as [_ Ha]. apply andb_true_iff in Hb as [_ Hb].
  apply bool_decide_eq_true in Ha, Hb. congruence.
Qed.

Section Owners.
Import Schema.
Context {Row : Type} (policies : list (policy Row)) (cs : constraints Row).
Context (user_id : Row -> uuid) (users : list uuid) (s : session).
Hypothesis using_own : forall c r,
  using_ok policies c s r = true -> owns s (user_id r) = true.
Hypothesis check_own : forall c r,
  check_ok policies c s r = true -> owns s (user_id r) = true.

Lemma update_keeps_owners (where_ : Row -> bool) (set : Row -> Row)
    (table : list Row) :
  map user_id (after (update policies users cs s where_ set table) table)
  = map user_id table.
Proof.
  destruct (after_update policies cs s where_ set users table)
    as [-> | [-> E]]; [reflexivity|].
  induction table as [|r rest IH]; [reflexivity|].
  cbn [forallb] in E. apply andb_true_iff in E as [Hr Hrest].
  cbn [map]. rewrite (IH Hrest). f_equal.
  destruct (using_ok policies UPDATE s r && where_ r) eqn:Et; [|reflexivity].
  cbn [negb orb] in Hr. apply andb_true_iff in Et as [Hu _].
  apply (owns_same_owner s); [apply (check_own _ _ Hr) | apply (using_own _ _ Hu)].
Qed.

End Owners.

(** X20. No update changes the owner of a row: whether it is carried out
    or refused, the table has afterwards the same owners in the same
    places, on songs and on prompter_settings. *)
Theorem update_never_changes_an_owner (s : Schema.session) :
  (forall users where_ set table,
     map Schema.songs_user_id
       (after (run users Schema.songs_policies Schema.songs_constraints
                 s (Update where_ set) table) table)
     = map Schema.songs_user_id table) /\
  (forall users where_ set table,
     map Schema.settings_user_id
       (after (run users Schema.prompter_settings_policies
                 Schema.prompter_settings_constraints
                 s (Update where_ set) table) table)
     = map Schema.settings_user_id table).
Proof.
  split; intros users where_ set table; cbn [run].
  - apply update_keeps_owners; [apply songs_using_own | apply songs_check_own].
  - apply update_keeps_owners; [apply settings_using_own | apply settings_check_own].
Qed.

(** X21. No statement of a client removes a settings row: after any
    sequence of statements the table starts with rows of the same
    owners as before, in the same order, followed by the owners of the
    rows inserted since. *)
Theorem settings_rows_are_never_removed
    (users : list Schema.uuid)
    (s : Schema.session) (stmts : list (statement Schema.prompter_settings_row))
    (table : list Schema.prompter_settings_row) :
  exists added,
    map Schema.settings_user_id
      (runAll users Schema.prompter_settings_policies
         Schema.prompter_settings_constraints s stmts table)
    = map Schema.settings_user_id table ++ added.
Proof.
  revert table. induction stmts as [|stmt rest IH]; intros table.
  - exists []. cbn [runAll]. now rewrite app_nil_r.
  - cbn [runAll].
    destruct (IH (after (run users Schema.prompter_settings_policies
                           Schema.prompter_settings_constraints s stmt table)
                    table))
      as [added Hadded].
    rewrite Hadded. clear Hadded IH.
    destruct stmt as [where_ | new | where_ set | where_]; cbn [run].
    + exists added. reflexivity.
    + unfold Schema.insert.
      destruct (Schema.check_ok Schema.prompter_settings_policies Schema.INSERT s new);
        cbn [negb]; [|exists added; reflexivity].
      destruct (Schema.admits Schema.prompter_settings_constraints new table
                && Schema.references_ok users
                     Schema.prompter_settings_constraints None new).
      * cbn [after]. exists (Schema.settings_user_id new :: added).
        now rewrite map_app, <- app_assoc.
      * exists added. reflexivity.
    + exists added.
      now rewrite (update_keeps_owners Schema.prompter_settings_policies
                     Schema.prompter_settings_constraints
                     Schema.settings_user_id users s
                     (settings_using_own s) (settings_check_own s)).
    + exists added. unfold Schema.delete. cbn [after]. do 2 f_equal.
      induction table as [|r t IHt]; [reflexivity|].
      cbn [List.filter]. rewrite using_ok_settings. cbn [andb negb].
      now rewrite IHt.
Qed.
